(** * Particle field of the birthday page (src/script.js)

    A shallow embedding of the particle system, the page start-up and the
    theme switcher of [script.js].

    Numbers.  JavaScript numbers are modelled as real numbers ([R]) with
    exact arithmetic: rounding of binary64 arithmetic is not modelled.  The
    concrete inputs used below are chosen so that every intermediate value
    is exactly representable wherever that matters, and an upper bound that
    a rounded result can reach (as [Math.random() * 0.5 + 0.2] reaches the
    double 0.7) is stated as a closed bound.

    Objects.  DOM elements live in a heap and are referred to by location,
    so that the canvas shared by the particle system and by each of its
    particles is one object: a change of its dimensions is seen by all. *)

From Stdlib Require Import Reals Lra Lia List Ascii String NArith ZArith Arith Bool.
Import ListNotations.

Open Scope R_scope.

(** ** DOM, window and heap *)

(** [HTMLCanvasElement.width] and [.height] are [unsigned long]. *)
Record Canvas : Type := mkCanvas { width : N; height : N }.

(** The JavaScript number that an [unsigned long] attribute reads as. *)
Definition num (n : N) : R := IZR (Z.of_N n).

Definition loc : Type := nat.

(** The heap gives the current dimensions of the canvas element at each
    location. *)
Definition Heap : Type := loc -> Canvas.

Definition store (h : Heap) (l : loc) (c : Canvas) : Heap :=
  fun l' => if Nat.eqb l' l then c else h l'.

(** [document.getElementById]: [None] stands for [null]. *)
Definition Document : Type := string -> option loc.

(** What the script reads and writes outside its own objects: the document,
    the heap of elements, the viewport size ([window.innerWidth],
    [window.innerHeight]) and the number of [Math.random()] calls made so
    far. *)
Record World : Type := mkWorld {
  document : Document;
  heap : Heap;
  innerWidth : N;
  innerHeight : N;
  calls : nat
}.

Definition set_heap (w : World) (h : Heap) : World :=
  mkWorld (document w) h (innerWidth w) (innerHeight w) (calls w).

Definition set_calls (w : World) (k : nat) : World :=
  mkWorld (document w) (heap w) (innerWidth w) (innerHeight w) k.

Definition set_viewport (w : World) (iw ih : N) : World :=
  mkWorld (document w) (heap w) iw ih (calls w).

(** [Math.random] is an oracle: [random k] is the value of the call number
    [k].  Its range [0 <= random k < 1] is a hypothesis of the theorems that
    need it. *)
Definition Random : Type := nat -> R.

Definition in_unit_interval (random : Random) : Prop :=
  forall k : nat, 0 <= random k < 1.

(** ** class Particle *)

Module Particle.

Record t : Type := mk {
  canvas : loc;
  x : R;
  y : R;
  size : R;
  speedX : R;
  speedY : R;
  opacity : R;
  color : option string
}.

(** [reset()]: six calls of [Math.random()], in the order of the source. *)
Definition reset (random : Random) (w : World) (p : t) : t * World :=
  let c := heap w (canvas p) in
  let k := calls w in
  (mk (canvas p)
      (random k * num (width c))
      (random (k + 1)%nat * num (height c))
      (random (k + 2)%nat * 3 + 1)
      (random (k + 3)%nat * 0.5 - 0.25)
      (random (k + 4)%nat * 0.5 - 0.25)
      (random (k + 5)%nat * 0.5 + 0.2)
      (color p),
   set_calls w (k + 6)%nat).

(** [constructor(canvas)]: stores the reference, then [reset()].  The
    numeric fields do not exist before [reset()] assigns them; the zeros
    are placeholders that [reset] overwrites. *)
Definition new (random : Random) (w : World) (cv : loc) : t * World :=
  reset random w (mk cv 0 0 0 0 0 0 None).

(** The two wrap tests of one axis, in the order of the source:
    [if (v > dim) v = 0; if (v < 0) v = dim;]. *)
Definition wrap (dim v : R) : R :=
  let v1 := if Rgt_dec v dim then 0 else v in
  if Rlt_dec v1 0 then dim else v1.

(** [update()]. *)
Definition update (h : Heap) (p : t) : t :=
  let c := h (canvas p) in
  let x1 := x p + speedX p in
  let y1 := y p + speedY p in
  mk (canvas p)
     (wrap (num (width c)) x1)
     (wrap (num (height c)) y1)
     (size p) (speedX p) (speedY p) (opacity p) (color p).

End Particle.

(** ** Canvas 2D drawing, recorded as a trace of commands *)

Inductive DrawCmd : Type :=
| ClearRect (x0 y0 w h : R)
    (** [ctx.clearRect(x0, y0, w, h)] *)
| FillArc (alpha cx cy r : R)
    (** [fillStyle = rgba(212, 165, 165, alpha)], [arc(cx, cy, r, 0, 2 * Math.PI)],
        [fill()] *)
| StrokeLine (alpha x1 y1 x2 y2 : R).
    (** [strokeStyle = rgba(212, 165, 165, alpha)], [lineWidth = 0.5],
        [moveTo(x1, y1)], [lineTo(x2, y2)], [stroke()] *)

Definition draw (p : Particle.t) : DrawCmd :=
  FillArc (Particle.opacity p) (Particle.x p) (Particle.y p) (Particle.size p).

(** ** Exceptions *)

Inductive Exception : Type :=
| TypeError (msg : string).

Inductive Result (A : Type) : Type :=
| Return (a : A)
| Throw (e : Exception).

Arguments Return {A} a.
Arguments Throw {A} e.

Definition bind {A B : Type} (m : Result A) (f : A -> Result B) : Result B :=
  match m with
  | Return a => f a
  | Throw e => Throw e
  end.

Notation "x <- m ;; k" := (bind m (fun x => k))
  (at level 61, m at next level, right associativity).

(** Dereferencing the result of [getElementById]: a property access on
    [null] throws a [TypeError]. *)
Definition deref (d : Document) (id : string) : Result loc :=
  match d id with
  | Some l => Return l
  | None => Throw (TypeError "Cannot read properties of null")
  end.

(** ** class ParticleSystem *)

Module ParticleSystem.

Record t : Type := mk {
  canvas : loc;
  particles : list Particle.t;
  particleCount : nat
}.

(** [resizeCanvas()]: writes the viewport size into the canvas element. *)
Definition resizeCanvas (s : t) (w : World) : World :=
  set_heap w (store (heap w) (canvas s)
                    (mkCanvas (innerWidth w) (innerHeight w))).

(** The loop of [init()]:
    [for (i = 0; i < particleCount; i++) particles.push(new Particle(canvas))],
    with [n] iterations left. *)
Fixpoint createParticles (random : Random) (n : nat) (cv : loc)
         (ps : list Particle.t) (w : World) : list Particle.t * World :=
  match n with
  | O => (ps, w)
  | S n' =>
      let (p, w') := Particle.new random w cv in
      createParticles random n' cv (ps ++ [p]) w'
  end.

Definition maxDistance : R := 120.

(** [Math.sqrt(dx * dx + dy * dy)] of [drawConnections]. *)
Definition distance (a b : Particle.t) : R :=
  let dx := Particle.x a - Particle.x b in
  let dy := Particle.y a - Particle.y b in
  sqrt (dx * dx + dy * dy).

(** [(1 - distance / maxDistance) * 0.2]. *)
Definition lineOpacity (d : R) : R := (1 - d / maxDistance) * 0.2.

(** The body of the inner loop of [drawConnections] at indices [i], [j]:
    the pair is kept when its distance passes the test. *)
Definition linked (ps : list Particle.t) (i j : nat) : list (nat * nat) :=
  match nth_error ps i, nth_error ps j with
  | Some a, Some b =>
      if Rlt_dec (distance a b) maxDistance then [(i, j)] else []
  | _, _ => []
  end.

(** The two loops of [drawConnections]: [i] from [0], [j] from [i + 1],
    both below [particles.length]; the result lists the index pairs for
    which a line is stroked, in the order of the strokes. *)
Definition connections (ps : list Particle.t) : list (nat * nat) :=
  let n := List.length ps in
  flat_map (fun i => flat_map (linked ps i) (seq (i + 1) (n - (i + 1))))
           (seq 0 n).

(** The stroke of one kept pair. *)
Definition stroke (ps : list Particle.t) (ij : nat * nat) : list DrawCmd :=
  match nth_error ps (fst ij), nth_error ps (snd ij) with
  | Some a, Some b =>
      [StrokeLine (lineOpacity (distance a b))
                  (Particle.x a) (Particle.y a)
                  (Particle.x b) (Particle.y b)]
  | _, _ => []
  end.

(** [drawConnections()]. *)
Definition drawConnections (ps : list Particle.t) : list DrawCmd :=
  flat_map (stroke ps) (connections ps).

(** [animate()]: clear, update and draw each particle, draw the
    connections.  The closing [requestAnimationFrame] asks for the next
    [Frame] event. *)
Definition animate (s : t) (w : World) : t * list DrawCmd :=
  let c := heap w (canvas s) in
  let ps := map (Particle.update (heap w)) (particles s) in
  (mk (canvas s) ps (particleCount s),
   ClearRect 0 0 (num (width c)) (num (height c))
     :: map draw ps ++ drawConnections ps).

(** [init()]: size the canvas, register the resize listener (the [Resize]
    event below), create the particles, draw the first frame. *)
Definition init (random : Random) (s : t) (w : World)
  : t * World * list DrawCmd :=
  let w1 := resizeCanvas s w in
  let (ps, w2) :=
    createParticles random (particleCount s) (canvas s) (particles s) w1 in
  let (s', tr) := animate (mk (canvas s) ps (particleCount s)) w2 in
  (s', w2, tr).

(** [constructor(canvasId, particleCount = 80)].  [this.canvas.getContext]
    is the first property access on the looked-up element. *)
Definition new (random : Random) (w : World) (canvasId : string)
           (particleCount : nat) : Result (t * World * list DrawCmd) :=
  cv <- deref (document w) canvasId ;;
  Return (init random (mk cv [] particleCount) w).

(** [updateColor(color)]. *)
Definition updateColor (col : string) (s : t) : t :=
  mk (canvas s)
     (map (fun p =>
             Particle.mk (Particle.canvas p) (Particle.x p) (Particle.y p)
                         (Particle.size p) (Particle.speedX p)
                         (Particle.speedY p) (Particle.opacity p)
                         (Some col))
          (particles s))
     (particleCount s).

End ParticleSystem.

(** ** The running field: frames and resize events *)

Inductive Event : Type :=
| Frame
    (** the callback passed to [requestAnimationFrame] runs *)
| Resize (iw ih : N).
    (** the viewport becomes [iw] by [ih] and the [resize] listener runs *)

Definition Field : Type := (ParticleSystem.t * World)%type.

Definition step (e : Event) (f : Field) : Field * list DrawCmd :=
  let (s, w) := f in
  match e with
  | Frame =>
      let (s', tr) := ParticleSystem.animate s w in ((s', w), tr)
  | Resize iw ih =>
      ((s, ParticleSystem.resizeCanvas s (set_viewport w iw ih)), [])
  end.

Fixpoint run (evs : list Event) (f : Field) : Field * list DrawCmd :=
  match evs with
  | [] => (f, [])
  | e :: evs' =>
      let (f1, tr1) := step e f in
      let (f2, tr2) := run evs' f1 in
      (f2, tr1 ++ tr2)
  end.

(** ** class ThemeController *)

(** The part of the page the theme switcher writes: the global
    [state.currentTheme], the [data-theme] attribute of [document.body]
    ([None] while the attribute is absent) and whether the class list of the
    controller's button contains [active]. *)
Record Page : Type := mkPage {
  currentTheme : string;
  data_theme : option string;
  button_active : bool
}.

Module ThemeController.

Record t : Type := mk {
  button : loc;
  themes : list string;
  currentThemeIndex : nat
}.

(** [constructor(buttonId)]; [init()] calls [addEventListener] on the
    looked-up button. *)
Definition new (d : Document) (buttonId : string) : Result t :=
  b <- deref d buttonId ;;
  Return (mk b ["romantic"%string; "vibrant"%string] 0).

(** [applyTheme(theme)]. *)
Definition applyTheme (theme : string) (pg : Page) : Page :=
  mkPage theme (Some theme) (String.eqb theme "vibrant").

(** [toggle()].  [animateTransition()] only adds a transition style and a
    short-lived ripple element and reads the theme; it writes none of the
    fields of [Page].  An index past the end of [themes] reads
    [undefined]. *)
Definition toggle (c : t) (pg : Page) : t * Page :=
  let i := ((currentThemeIndex c + 1) mod List.length (themes c))%nat in
  let newTheme := nth i (themes c) "undefined"%string in
  (mk (button c) (themes c) i, applyTheme newTheme pg).

End ThemeController.

(** The page as the script finds it: [state.currentTheme] is ['romantic'];
    the attribute and the class come from the markup. *)
Definition initialPage (attr : option string) (act : bool) : Page :=
  mkPage "romantic" attr act.

(** States of the theme switcher that the page can be in: the one the
    constructor builds, and those that clicks on the button lead to. *)
Inductive reachable : ThemeController.t * Page -> Prop :=
| reach_new (d : Document) (id : string) (c : ThemeController.t)
            (attr : option string) (act : bool) :
    ThemeController.new d id = Return c ->
    reachable (c, initialPage attr act)
| reach_toggle (c : ThemeController.t) (pg : Page) :
    reachable (c, pg) ->
    reachable (ThemeController.toggle c pg).

(** ** The other controllers bound to an element *)

(** What the music switch reads and writes outside the controller:
    [state.musicPlaying], whether the class list of the music button
    contains [active], whether the audio element is paused, and the lines
    written to the console. *)
Record Sound : Type := mkSound {
  musicPlaying : bool;
  music_button_active : bool;
  audio_paused : bool;
  console : list string
}.

Module MusicController.

Record t : Type := mk {
  audio : option loc;
  button : loc;
  isPlaying : bool
}.

(** [constructor(audioId, buttonId)]: both elements are looked up, and
    [init()] calls [addEventListener] on the button. *)
Definition new (d : Document) (audioId buttonId : string) : Result t :=
  b <- deref d buttonId ;;
  Return (mk (d audioId) b false).

(** [play()].  [this.audio.play()] is a property access on the looked-up
    audio element.  [allowed] tells whether the browser lets the playback
    start: if so the element is no longer paused and the promise resolves;
    if not the element stays as it is and the promise rejects, and the
    [catch] handler, run once the click has been handled, writes two lines
    to the console.  The three assignments after the call run in both
    cases. *)
Definition play (c : t) (allowed : bool) (sd : Sound) : Result (t * Sound) :=
  match audio c with
  | None => Throw (TypeError "Cannot read properties of null")
  | Some _ =>
      Return
        (mk (audio c) (button c) true,
         mkSound true true
                 (if allowed then false else audio_paused sd)
                 (if allowed then console sd
                  else console sd
                       ++ ["Audio play prevented:"%string;
                           "Please interact with the page to enable music"%string]))
  end.

(** [pause()]. *)
Definition pause (c : t) (sd : Sound) : Result (t * Sound) :=
  match audio c with
  | None => Throw (TypeError "Cannot read properties of null")
  | Some _ =>
      Return (mk (audio c) (button c) false,
              mkSound false false true (console sd))
  end.

(** [toggle()], the click listener of the button. *)
Definition toggle (c : t) (allowed : bool) (sd : Sound) : Result (t * Sound) :=
  if isPlaying c then pause c sd else play c allowed sd.

End MusicController.

(** [LoveTreeCreator], [FireworksController] and [UltimateCelebration] each
    look their button up and call [addEventListener] on it in [init()]; of
    their state only the button matters here. *)
Definition buttonController (d : Document) (buttonId : string) : Result loc :=
  deref d buttonId.

(** ** Start-up: the [DOMContentLoaded] listener *)

Record App : Type := mkApp {
  particleSystem : ParticleSystem.t;
  musicController : MusicController.t;
  themeController : ThemeController.t;
  loveTreeCreator : loc;
  fireworksController : loc;
  ultimateCelebration : loc
}.

(** The constructors run in the order of the source, with no [try] around
    any of them: an exception thrown by one ends the listener.
    [FloatingHeartsEffect.start()] makes four [Math.random()] calls; the
    carousel, hover and performance set-up look up no element by id that
    they dereference unguarded and are left out. *)
Definition DOMContentLoaded (random : Random) (w : World)
  : Result (App * World * list DrawCmd) :=
  r <- ParticleSystem.new random w "particleCanvas" 60 ;;
  let '(ps, w1, tr) := r in
  mc <- MusicController.new (document w1) "bgAudio" "musicBtn" ;;
  tc <- ThemeController.new (document w1) "modeBtn" ;;
  let w2 := set_calls w1 (calls w1 + 4)%nat in
  lt <- buttonController (document w2) "treeBtn" ;;
  fc <- buttonController (document w2) "ultimateBtn" ;;
  uc <- buttonController (document w2) "ultimateBtn" ;;
  Return (mkApp ps mc tc lt fc uc, w2, tr).

(** ** Vocabulary of the statements *)

Definition W (h : Heap) (p : Particle.t) : R :=
  num (width (h (Particle.canvas p))).

Definition H (h : Heap) (p : Particle.t) : R :=
  num (height (h (Particle.canvas p))).

(** The closed box of the canvas a particle refers to. *)
Definition in_box (h : Heap) (p : Particle.t) : Prop :=
  0 <= Particle.x p <= W h p /\ 0 <= Particle.y p <= H h p.

(** The randomized attributes other than the position. *)
Definition attributes (p : Particle.t) : R * R * R * R :=
  (Particle.size p, Particle.speedX p, Particle.speedY p, Particle.opacity p).

(** [n] successive updates of one particle against a fixed heap. *)
Fixpoint updates (n : nat) (h : Heap) (p : Particle.t) : Particle.t :=
  match n with
  | O => p
  | S n' => Particle.update h (updates n' h p)
  end.

(** The field reached from [f] by the events [evs], and its parts. *)
Definition final (evs : list Event) (f : Field) : Field := fst (run evs f).

Definition field_particles (f : Field) : list Particle.t :=
  ParticleSystem.particles (fst f).

(** The canvas of the field as it is now. *)
Definition field_canvas (f : Field) : Canvas :=
  heap (snd f) (ParticleSystem.canvas (fst f)).

(** Every particle of the system refers to the system's own canvas. *)
Definition aliased (s : ParticleSystem.t) : Prop :=
  Forall (fun p => Particle.canvas p = ParticleSystem.canvas s)
         (ParticleSystem.particles s).

(** The closed box of the field's canvas. *)
Definition within (c : Canvas) (p : Particle.t) : Prop :=
  0 <= Particle.x p <= num (width c) /\ 0 <= Particle.y p <= num (height c).

(** What no event changes: which canvas the system has, that its particles
    share it, how many particles there are and their randomized
    attributes. *)
Definition preserved (f f' : Field) : Prop :=
  ParticleSystem.canvas (fst f') = ParticleSystem.canvas (fst f) /\
  (aliased (fst f) -> aliased (fst f')) /\
  List.length (field_particles f') = List.length (field_particles f) /\
  map attributes (field_particles f') = map attributes (field_particles f).

(** The wrap rule in the words of the specification: a coordinate that
    exceeds the dimension is reset to 0, a coordinate below 0 is reset to
    the dimension, any other coordinate is kept. *)
Definition wrap_rule (dim v : R) : R :=
  if Rlt_dec dim v then 0
  else if Rlt_dec v 0 then dim
  else v.

(** One simulation step in the words of the specification, against a canvas
    of given dimensions: the position moves by the velocity, each coordinate
    is wrapped by the rule against its own dimension, nothing else
    changes. *)
Definition advance (c : Canvas) (p : Particle.t) : Particle.t :=
  Particle.mk (Particle.canvas p)
              (wrap_rule (num (width c)) (Particle.x p + Particle.speedX p))
              (wrap_rule (num (height c)) (Particle.y p + Particle.speedY p))
              (Particle.size p) (Particle.speedX p) (Particle.speedY p)
              (Particle.opacity p) (Particle.color p).

(** The Euclidean distance of the positions of two particles, written
    out. *)
Definition euclidean (a b : Particle.t) : R :=
  sqrt ((Particle.x a - Particle.x b) ^ 2 + (Particle.y a - Particle.y b) ^ 2).

(** The pair at indices [i], [j] is close: both particles exist and their
    Euclidean distance is below 120. *)
Definition close (ps : list Particle.t) (i j : nat) : Prop :=
  exists a b : Particle.t,
    nth_error ps i = Some a /\ nth_error ps j = Some b /\
    euclidean a b < 120.

(** [cmd] is the line of the pair [ij]: from the first particle to the
    second, with the opacity [(1 - d / 120) * 0.2] of their Euclidean
    distance [d]. *)
Definition line_of (ps : list Particle.t) (ij : nat * nat) (cmd : DrawCmd)
  : Prop :=
  exists a b : Particle.t,
    nth_error ps (fst ij) = Some a /\ nth_error ps (snd ij) = Some b /\
    cmd = StrokeLine ((1 - euclidean a b / 120) * 0.2)
                     (Particle.x a) (Particle.y a)
                     (Particle.x b) (Particle.y b).

(** Two clicks on the theme button. *)
Definition toggle_twice (c : ThemeController.t) (pg : Page)
  : ThemeController.t * Page :=
  let (c1, pg1) := ThemeController.toggle c pg in
  ThemeController.toggle c1 pg1.

(** The theme is one of the two of the switcher. *)
Definition known_theme (pg : Page) : Prop :=
  currentTheme pg = "romantic"%string \/ currentTheme pg = "vibrant"%string.

(** ** Concrete pages and oracles *)

(** A page that has every element the script looks up by id. *)
Definition page : Document :=
  fun id =>
    if String.eqb id "particleCanvas" then Some 0%nat
    else if String.eqb id "bgAudio" then Some 1%nat
    else if String.eqb id "musicBtn" then Some 2%nat
    else if String.eqb id "modeBtn" then Some 3%nat
    else if String.eqb id "treeBtn" then Some 4%nat
    else if String.eqb id "ultimateBtn" then Some 5%nat
    else None.

(** The same page without the canvas element. *)
Definition page_without_canvas : Document :=
  fun id => if String.eqb id "particleCanvas" then None else page id.

(** A canvas element is 300 by 150 until its dimensions are set. *)
Definition default_heap : Heap := fun _ => mkCanvas 300 150.

Definition world (d : Document) (iw ih : N) : World :=
  mkWorld d default_heap iw ih 0.

Definition random_half : Random := fun _ => 1 / 2.

(** An oracle whose first particle starts at [x = 1/16] on a canvas 128 wide
    with [speedX = -1/8]. *)
Definition random_edge : Random :=
  fun k =>
    match k with
    | 0%nat => 1 / 2048
    | 3%nat => 1 / 4
    | _ => 1 / 2
    end.

(** An oracle whose first particle starts at [x = 500] on a canvas 800 wide
    with [speedX = 1/8]. *)
Definition random_scenario : Random :=
  fun k =>
    match k with
    | 0%nat => 5 / 8
    | 3%nat => 3 / 4
    | _ => 1 / 2
    end.

(** A particle on the canvas at location 0. *)
Definition particle_at (px py sx sy : R) : Particle.t :=
  Particle.mk 0%nat px py 2 sx sy (1 / 2) None.

(** The particles of the connection scenarios. *)
Definition pA : Particle.t := particle_at 10 10 0 0.
Definition pB : Particle.t := particle_at 10 50 0 0.
Definition pC : Particle.t := particle_at 10 210 0 0.

(** The controller the constructor builds on [page]. *)
Definition controller0 : ThemeController.t :=
  ThemeController.mk 3%nat ["romantic"%string; "vibrant"%string] 0%nat.

(** ** Clicks on the music button *)

(** One click after the other; [allowed] lists, click by click, whether the
    browser would let a playback start. *)
Fixpoint music_clicks (allowed : list bool) (c : MusicController.t)
         (sd : Sound) : Result (MusicController.t * Sound) :=
  match allowed with
  | [] => Return (c, sd)
  | a :: rest =>
      r <- MusicController.toggle c a sd ;;
      music_clicks rest (fst r) (snd r)
  end.

(** ** The key sequence of the Easter egg *)

Definition konamiSequence : list string :=
  ["ArrowUp"; "ArrowUp"; "ArrowDown"; "ArrowDown"; "ArrowLeft"; "ArrowRight";
   "ArrowLeft"; "ArrowRight"; "b"; "a"]%string.

(** [Array.prototype.slice(-n)]: the last [n] elements, all of them when
    there are fewer. *)
Definition slice_last {A : Type} (n : nat) (l : list A) : list A :=
  skipn (List.length l - n) l.

(** [Array.prototype.join(',')]. *)
Definition join (l : list string) : string := String.concat "," l.

(** The [keydown] listener: the new value of [konamiCode], and whether
    [triggerSpecialEffect()] is called. *)
Definition keydown (konamiCode : list string) (key : string)
  : list string * bool :=
  let code := slice_last 10 (konamiCode ++ [key]) in
  (code, String.eqb (join code) (join konamiSequence)).

(** The value of [konamiCode] after the keys [keys], pressed in this order
    with [konamiCode] as it was before. *)
Definition keydowns (keys : list string) (konamiCode : list string)
  : list string :=
  fold_left (fun code key => fst (keydown code key)) keys konamiCode.

(** The fields of a joined string: what lies between its commas. *)
Fixpoint fields (s : string) : list string :=
  match s with
  | EmptyString => [EmptyString]
  | String c s' =>
      if Ascii.eqb c ","%char then EmptyString :: fields s'
      else match fields s' with
           | h :: t => String c h :: t
           | [] => [String c EmptyString]
           end
  end.

(** No comma in the string. *)
Fixpoint comma_free (s : string) : bool :=
  match s with
  | EmptyString => true
  | String c s' => negb (Ascii.eqb c ","%char) && comma_free s'
  end.

(** A value of [KeyboardEvent.key]: the name of a key or the character it
    types, so either free of commas or the comma itself. *)
Definition key_value (k : string) : Prop :=
  comma_free k = true \/ k = ","%string.

(** The fields that a key contributes to the joined string. *)
Definition key_fields (k : string) : list string :=
  if String.eqb k "," then [EmptyString; EmptyString] else [k].

(** The five elements whose listeners the start-up installs. *)
Definition required_ids : list string :=
  ["particleCanvas"; "musicBtn"; "modeBtn"; "treeBtn"; "ultimateBtn"]%string.

(** ** Vocabulary of the further statements *)

(** What is drawn while the events [evs] are handled. *)
Definition drawn (evs : list Event) (f : Field) : list DrawCmd :=
  snd (run evs f).

(** The particle with its [color] property set. *)
Definition with_color (col : string) (p : Particle.t) : Particle.t :=
  Particle.mk (Particle.canvas p) (Particle.x p) (Particle.y p)
              (Particle.size p) (Particle.speedX p) (Particle.speedY p)
              (Particle.opacity p) (Some col).

(** The [i]-th particle that the constructor creates on the canvas [cv]: it
    is built from the six calls of [Math.random()] that follow the [6 * i]
    calls of its predecessors, on the world [w] in which the canvas has been
    sized. *)
Definition created (random : Random) (w : World) (cv : loc) (i : nat)
  : Particle.t :=
  fst (Particle.new random (set_calls w (calls w + 6 * i)%nat) cv).

(** ** class LoveTreeCreator *)

(** A tree element on the page: the identity of the element and its
    [style.left], in pixels. *)
Record TreeElement : Type := mkTree { tree_id : nat; tree_left : R }.

(** What the tree creator reads and writes outside its own fields: the tree
    elements attached to [document.body], in the order they were appended,
    whether the class list of its button contains [active], the trees whose
    class list contains [grow-out], and the identity of the next element
    that [document.createElement] returns. *)
Record Garden : Type := mkGarden {
  body_trees : list TreeElement;
  tree_button_active : bool;
  growing_out : list nat;
  next_tree : nat
}.

(** The callbacks that the tree creator passes to [setTimeout]. *)
Inductive Timer : Type :=
| RowAnimate (tree layerIndex : nat)
    (** [row.classList.add('animate')] for one row of hearts *)
| AddSparkles (tree : nat)
    (** [this.addSparkles(tree)] *)
| Sparkle (tree i : nat)
    (** appends the sparkle number [i] to the tree *)
| RemoveTree (tree : nat)
    (** [this.removeTree(tree)] *)
| FinishRemove (tree : nat)
    (** the callback of [removeTree] *)
| ResetGrowing.
    (** the callback that ends [createTree] *)

(** A call of [setTimeout]: the delay in milliseconds and the callback. *)
Definition Scheduled : Type := (N * Timer)%type.

(** [Array.prototype.indexOf] followed by [splice(index, 1)] when the index
    is not [-1]: the first occurrence is removed. *)
Fixpoint remove_first (t : nat) (l : list nat) : list nat :=
  match l with
  | [] => []
  | a :: l' => if Nat.eqb a t then l' else a :: remove_first t l'
  end.

(** [classList.add]. *)
Definition class_add (t : nat) (l : list nat) : list nat :=
  if existsb (Nat.eqb t) l then l else l ++ [t].

(** [element.remove()] for the tree [t]: it is detached if it is attached. *)
Definition detach (t : nat) (l : list TreeElement) : list TreeElement :=
  filter (fun e => negb (Nat.eqb (tree_id e) t)) l.

Module LoveTreeCreator.

Record t : Type := mk {
  button : loc;
  currentTree : option nat;
  isGrowing : bool;
  treeCount : nat;
  maxTrees : nat;
  activeTrees : list nat
}.

(** [constructor(buttonId)]; [init()] calls [addEventListener] on the
    looked-up button. *)
Definition new (d : Document) (buttonId : string) : Result t :=
  b <- deref d buttonId ;;
  Return (mk b None false 0 3 []).

Definition set_growing (c : t) (b : bool) : t :=
  mk (button c) (currentTree c) b (treeCount c) (maxTrees c) (activeTrees c).

Definition set_trees (c : t) (l : list nat) : t :=
  mk (button c) (currentTree c) (isGrowing c) (treeCount c) (maxTrees c) l.

(** [getRandomPosition()]. *)
Definition getRandomPosition (random : Random) (w : World) : R * World :=
  let margin := 100 in
  let maxWidth := num (innerWidth w) - margin * 2 in
  (margin + random (calls w) * maxWidth, set_calls w (calls w + 1)).

(** The six rows of hearts of [createTree()]: the number of hearts and the
    delay of each row. *)
Definition layers : list (nat * R) :=
  [(1%nat, 0); (3%nat, 0.2); (5%nat, 0.4); (7%nat, 0.6); (5%nat, 0.8);
   (3%nat, 1.0)].

(** [removeTree(tree)]: marks the tree and leaves the rest to a timer. *)
Definition removeTree (tree : nat) (g : Garden) : Garden * list Scheduled :=
  (mkGarden (body_trees g) (tree_button_active g)
            (class_add tree (growing_out g)) (next_tree g),
   [(1500%N, FinishRemove tree)]).

(** The callback of [removeTree(tree)]. *)
Definition finishRemove (tree : nat) (c : t) (g : Garden) : t * Garden :=
  let l := remove_first tree (activeTrees c) in
  (set_trees c l,
   mkGarden (detach tree (body_trees g))
            (match l with [] => false | _ :: _ => tree_button_active g end)
            (growing_out g) (next_tree g)).

(** [removeOldestTree()]. *)
Definition removeOldestTree (c : t) (g : Garden) : Garden * list Scheduled :=
  match activeTrees c with
  | [] => (g, [])
  | oldest :: _ => removeTree oldest g
  end.

(** [createTree()].  The rows of hearts, the crown and the trunk are
    children of the new element; of the element only its identity and its
    position are kept here. *)
Definition createTree (random : Random) (w : World) (c : t) (g : Garden)
  : t * Garden * World * list Scheduled :=
  let tree := next_tree g in
  let (position, w') := getRandomPosition random w in
  (mk (button c) (currentTree c) true (treeCount c) (maxTrees c)
      (activeTrees c ++ [tree]),
   mkGarden (body_trees g ++ [mkTree tree position]) true
            (growing_out g) (S tree),
   w',
   map (fun layerIndex =>
          ((N.of_nat layerIndex * 150)%N, RowAnimate tree layerIndex))
       (seq 0 (List.length layers))
   ++ [(1500%N, AddSparkles tree);
       (15000%N, RemoveTree tree);
       (2000%N, ResetGrowing)]).

(** The callback that ends [createTree()]. *)
Definition resetGrowing (c : t) (g : Garden) : t * Garden :=
  (set_growing c false,
   mkGarden (body_trees g)
            (match activeTrees c with
             | [] => false
             | _ :: _ => tree_button_active g
             end)
            (growing_out g) (next_tree g)).

(** [handleClick()], the click listener of the button. *)
Definition handleClick (random : Random) (w : World) (c : t) (g : Garden)
  : t * Garden * World * list Scheduled :=
  if isGrowing c then (c, g, w, [])
  else
    let (g1, timers1) :=
      if (maxTrees c <=? List.length (activeTrees c))%nat
      then removeOldestTree c g else (g, []) in
    let '(c2, g2, w2, timers2) := createTree random w c g1 in
    (c2, g2, w2, timers1 ++ timers2).

(** [addSparkles(tree)]: twelve timers, a tenth of a second apart. *)
Definition addSparkles (tree : nat) : list Scheduled :=
  map (fun i => ((N.of_nat i * 100)%N, Sparkle tree i)) (seq 0 12).

(** [clearAllTrees()]. *)
Definition clearAllTrees (c : t) (g : Garden) : t * Garden :=
  (set_trees c [],
   mkGarden (fold_left (fun l tree => detach tree l) (activeTrees c)
                       (body_trees g))
            false (growing_out g) (next_tree g)).

(** A timer fires.  The callbacks of the rows and of the sparkles only add
    classes and children inside a tree element. *)
Definition fire (tm : Timer) (c : t) (g : Garden)
  : t * Garden * list Scheduled :=
  match tm with
  | RowAnimate _ _ => (c, g, [])
  | AddSparkles tree => (c, g, addSparkles tree)
  | Sparkle _ _ => (c, g, [])
  | RemoveTree tree => let (g', timers) := removeTree tree g in (c, g', timers)
  | FinishRemove tree => let (c', g') := finishRemove tree c g in (c', g', [])
  | ResetGrowing => let (c', g') := resetGrowing c g in (c', g', [])
  end.

End LoveTreeCreator.

(** What can happen to the tree creator: a click on its button, a call of
    [createTree()] by the celebration, a timer that fires, a call of
    [clearAllTrees()]. *)
Inductive TreeOp : Type :=
| TreeClick
| TreeSpawn
| TreeFire (tm : Timer)
| TreeClear.

Definition TreeState : Type := (LoveTreeCreator.t * Garden * World)%type.

Definition tree_step (random : Random) (op : TreeOp) (st : TreeState)
  : TreeState :=
  let '(c, g, w) := st in
  match op with
  | TreeClick => fst (LoveTreeCreator.handleClick random w c g)
  | TreeSpawn => fst (LoveTreeCreator.createTree random w c g)
  | TreeFire tm => (fst (LoveTreeCreator.fire tm c g), w)
  | TreeClear => (LoveTreeCreator.clearAllTrees c g, w)
  end.

Definition tree_run (random : Random) (ops : list TreeOp) (st : TreeState)
  : TreeState :=
  fold_left (fun st op => tree_step random op st) ops st.

(** The page before any tree has been grown. *)
Definition empty_garden (active : bool) (next : nat) : Garden :=
  mkGarden [] active [] next.

(** The list of the creator and the page agree: the trees of the list are
    the trees on the page, in the same order and each once, they are older
    than the next element, and the button is highlighted while there is
    one. *)
Definition tree_inv (st : TreeState) : Prop :=
  let '(c, g, _) := st in
  map tree_id (body_trees g) = LoveTreeCreator.activeTrees c /\
  NoDup (LoveTreeCreator.activeTrees c) /\
  Forall (fun t => (t < next_tree g)%nat) (LoveTreeCreator.activeTrees c) /\
  (LoveTreeCreator.activeTrees c <> [] -> tree_button_active g = true) /\
  LoveTreeCreator.maxTrees c = 3%nat.

(** The tree creator as the constructor leaves it on [page], before any
    tree has been grown. *)
Definition tree_creator0 : LoveTreeCreator.t :=
  LoveTreeCreator.mk 4%nat None false 0%nat 3%nat [].

Definition tree_state0 : TreeState :=
  (tree_creator0, empty_garden false 0%nat, world page 800 600).

(** Four clicks, each after the timer that ends the growth before it. *)
Definition four_clicks : list TreeOp :=
  [TreeClick; TreeFire ResetGrowing; TreeClick; TreeFire ResetGrowing;
   TreeClick; TreeFire ResetGrowing; TreeClick].

(** ** Random picks, hearts and fireworks *)

(** [arr[Math.floor(Math.random() * arr.length)]] for the value [r] of
    [Math.random()]; [None] stands for [undefined]. *)
Definition random_pick {A : Type} (r : R) (arr : list A) : option A :=
  let i := Zfloor (r * INR (List.length arr)) in
  if (i <? 0)%Z then None else nth_error arr (Z.to_nat i).

Module FloatingHeartsEffect.

Definition hearts : list string :=
  ["♥"; "♡"; "❤"; "💕"; "💖"]%string.

(** The heart that [createHeart()] appends to the page: its text, its font
    size in pixels, its [left] in [vw] and the duration of its animation in
    seconds. *)
Record Heart : Type := mkHeart {
  symbol : option string;
  fontSize : R;
  left : R;
  duration : R
}.

(** [createHeart()]: four calls of [Math.random()], in the order of the
    source; the heart is removed after seven seconds. *)
Definition createHeart (random : Random) (w : World) : Heart * World :=
  let k := calls w in
  (mkHeart (random_pick (random k) hearts)
           (random (k + 1)%nat * 20 + 20)
           (random (k + 2)%nat * 100)
           (random (k + 3)%nat * 3 + 4),
   set_calls w (k + 4)%nat).

End FloatingHeartsEffect.

(** The state shared by the two controllers of the celebration button:
    [isActive] of the fireworks controller, [isActive] of the celebration,
    and whether the class list of the button contains [active]. *)
Record Show : Type := mkShow {
  fireworks_isActive : bool;
  celebration_isActive : bool;
  show_button_active : bool
}.

(** The callbacks that the two controllers pass to [setTimeout]. *)
Inductive ShowTimer : Type :=
| LaunchFirework
    (** [createFirework()] of the fireworks controller *)
| FireworksReset
    (** the callback that ends [launch()] *)
| RemoveFlash
| ConfettiPiece (i : nat)
| SpawnTree
    (** [createTree()] of the tree creator *)
| HeartOfBurst (i : nat)
| FadeBanner
| EndShake
| CelebrationReset.
    (** the callback that ends [activate()] *)

Module FireworksController.

Definition colors : list string :=
  ["#ff6b9d"; "#ffd700"; "#00ff00"; "#00bfff";
   "#ff69b4"; "#ff1493"; "#ff4500"; "#9370db";
   "#00fa9a"; "#ffa500"; "#ff6347"; "#7fff00"]%string.

(** The flight of one rocket, as [createFirework()] draws it. *)
Record Rocket : Type := mkRocket {
  startX : R;
  startY : R;
  endX : R;
  endY : R
}.

(** [createFirework()]: three calls of [Math.random()]; the rocket flies for
    0.8 s and explodes at its end point. *)
Definition createFirework (random : Random) (w : World) : Rocket * World :=
  let k := calls w in
  let startX := random k * num (innerWidth w) in
  let startY := num (innerHeight w) in
  let endX := startX + (random (k + 1)%nat - 0.5) * 200 in
  let endY := random (k + 2)%nat * (num (innerHeight w) * 0.4) + 100 in
  (mkRocket startX startY endX endY, set_calls w (k + 3)%nat).

(** One run of the [animate] closure of [createRocketTrail], [elapsed]
    milliseconds after the start: the position given to the trail, and
    whether another frame is requested. *)
Definition trail (r : Rocket) (elapsed : R) : R * R * bool :=
  let duration := 800 in
  let progress := Rmin (elapsed / duration) 1 in
  let currentX := startX r + (endX r - startX r) * progress in
  let currentY := startY r + (endY r - startY r) * progress in
  (currentX, currentY, if Rlt_dec progress 1 then true else false).

(** One particle of an explosion: its translation and the duration of its
    animation in seconds. *)
Record Spark : Type := mkSpark { tx : R; ty : R; seconds : R }.

(** The particle number [i] of [explode], with the two values of
    [Math.random()] it uses. *)
Definition spark (i : nat) (r1 r2 : R) : Spark :=
  let particleCount := 40 in
  let angle := (PI * 2 * INR i) / particleCount in
  let velocity := 100 + r1 * 100 in
  mkSpark (cos angle * velocity) (sin angle * velocity) (1.5 + r2 * 0.5).

(** [explode(x, y)]: the colour and the forty particles; one call of
    [Math.random()] for the colour, then two for each particle. *)
Definition explode (random : Random) (w : World)
  : option string * list Spark * World :=
  let k := calls w in
  (random_pick (random k) colors,
   map (fun i => spark i (random (k + 1 + 2 * i)%nat)
                         (random (k + 2 + 2 * i)%nat))
       (seq 0 40),
   set_calls w (k + 81)%nat).

(** [launch()], the first click listener of the celebration button: eight
    fireworks 0.4 s apart, and the reset after four seconds. *)
Definition launch (sh : Show) : Show * list (N * ShowTimer) :=
  if fireworks_isActive sh then (sh, [])
  else (mkShow true (celebration_isActive sh) true,
        map (fun i => ((N.of_nat i * 400)%N, LaunchFirework)) (seq 0 8)
        ++ [(4000%N, FireworksReset)]).

(** The callback that ends [launch()]. *)
Definition reset (sh : Show) : Show :=
  mkShow false (celebration_isActive sh) false.

End FireworksController.

Module UltimateCelebration.

(** [activate()], the second click listener of the celebration button.
    [has_fireworks] and [has_trees] tell whether
    [window.birthdayApp.fireworksController] and [.treeCreator] are set.
    The timers are listed in the order of the calls: the flash, the
    confetti, the fireworks, the trees, the hearts, the banner, the shake
    and the reset. *)
Definition activate (has_fireworks has_trees : bool) (sh : Show)
  : Show * list (N * ShowTimer) :=
  if celebration_isActive sh then (sh, [])
  else (mkShow (fireworks_isActive sh) true true,
        [(500%N, RemoveFlash)]
        ++ map (fun i => ((N.of_nat i * 20)%N, ConfettiPiece i)) (seq 0 200)
        ++ (if has_fireworks
            then map (fun i => ((N.of_nat i * 400)%N, LaunchFirework))
                     (seq 0 15)
            else [])
        ++ (if has_trees
            then map (fun i => ((N.of_nat i * 500)%N, SpawnTree)) (seq 0 3)
            else [])
        ++ map (fun i => ((N.of_nat i * 10)%N, HeartOfBurst i)) (seq 0 100)
        ++ [(4000%N, FadeBanner); (500%N, EndShake);
            (8000%N, CelebrationReset)]).

(** The callback that ends [activate()]. *)
Definition reset (sh : Show) : Show :=
  mkShow (fireworks_isActive sh) false false.

Definition hearts : list string :=
  ["♥"; "♡"; "❤"; "💕"; "💖"; "💗"; "💝"; "💘"]%string.



End UltimateCelebration.

(** A click on the celebration button: the listeners run in the order in
    which the start-up registered them. *)
Definition show_click (has_fireworks has_trees : bool) (sh : Show)
  : Show * list (N * ShowTimer) :=
  let (sh1, timers1) := FireworksController.launch sh in
  let (sh2, timers2) :=
    UltimateCelebration.activate has_fireworks has_trees sh1 in
  (sh2, timers1 ++ timers2).

(** The number of fireworks among the timers. *)
Definition fireworks_scheduled (timers : list (N * ShowTimer)) : nat :=
  List.length
    (filter (fun tm => match snd tm with LaunchFirework => true | _ => false end)
            timers).

(** Nothing is running and the button is not highlighted. *)
Definition show_at_rest : Show := mkShow false false false.


(** The randomized attributes are in the ranges of [reset()]. *)
Definition attributes_in_range (a : R * R * R * R) : Prop :=
  let '(size, speedX, speedY, opacity) := a in
  1 <= size < 4 /\ -0.25 <= speedX < 0.25 /\ -0.25 <= speedY < 0.25 /\
  0.2 <= opacity <= 0.7.

(** A drawing command of a frame on the canvas [c] is as it should be: the
    whole canvas is cleared, discs have a radius in [1, 4) and an opacity in
    [0.2, 0.7], lines an opacity in (0, 0.2], and all of them lie on the
    canvas. *)
Definition well_drawn (c : Canvas) (cmd : DrawCmd) : Prop :=
  let on_canvas px py :=
    0 <= px <= num (width c) /\ 0 <= py <= num (height c) in
  match cmd with
  | ClearRect x0 y0 cw ch =>
      x0 = 0 /\ y0 = 0 /\ cw = num (width c) /\ ch = num (height c)
  | FillArc alpha cx cy r =>
      0.2 <= alpha <= 0.7 /\ 1 <= r < 4 /\ on_canvas cx cy
  | StrokeLine alpha x1 y1 x2 y2 =>
      0 < alpha <= 0.2 /\ on_canvas x1 y1 /\ on_canvas x2 y2
  end.

(** ** class ImageCarouselController *)

Module ImageCarouselController.

Definition imageDatabase : list (string * list string) :=
  [("cake", ["p4.jpg"; "p5.jpg"]);
   ("chocolate", ["p2.jpg"; "p5.jpg"]);
   ("love", ["p3.jpg"; "p5.jpg"])]%string.

(** [this.imageDatabase[category]], among the three properties of the
    object; [None] stands for [undefined]. *)
Definition images_of (category : string) : option (list string) :=
  option_map snd
             (find (fun entry => String.eqb (fst entry) category)
                   imageDatabase).

(** [currentIndices], an object used as a map from categories to indices,
    and for each carousel of the page, by its position in [carousels], the
    source last handed to [loadImage] for its image ([None] before any, and
    for [undefined]). *)
Record t : Type := mk {
  currentIndices : string -> option nat;
  requested : nat -> option string
}.

Definition set_index (c : t) (category : string) (k : nat) : t :=
  mk (fun cat => if String.eqb cat category then Some k
                 else currentIndices c cat)
     (requested c).

Definition set_requested (c : t) (i : nat) (src : option string) : t :=
  mk (currentIndices c)
     (fun j => if Nat.eqb j i then src else requested c j).

(** The body of the loop of [init()] for the carousel number [i], whose
    attribute [data-category] is [category] ([None] when it is absent). *)
Definition init_one (i : nat) (category : option string) (c : t) : t :=
  match category with
  | Some cat =>
      match images_of cat with
      | Some images =>
          set_requested (set_index c cat 0) i (nth_error images 0)
      | None => c
      end
  | None => c
  end.

Fixpoint init_from (i : nat) (carousels : list (option string)) (c : t) : t :=
  match carousels with
  | [] => c
  | category :: rest => init_from (S i) rest (init_one i category c)
  end.

(** [constructor()] with [init()], for the carousels of the page. *)
Definition new (carousels : list (option string)) : t :=
  init_from 0 carousels (mk (fun _ => None) (fun _ => None)).

(** The callback of the rotation of the carousel number [i], 0.8 s after
    each tick of its interval.  A rotation exists only for a carousel whose
    category [init()] found in the database, so that the index is set. *)
Definition rotate (carousels : list (option string)) (i : nat) (c : t) : t :=
  match nth_error carousels i with
  | Some (Some cat) =>
      match images_of cat, currentIndices c cat with
      | Some images, Some k =>
          let k' := ((k + 1) mod List.length images)%nat in
          set_requested (set_index c cat k') i (nth_error images k')
      | _, _ => c
      end
  | _ => c
  end.

End ImageCarouselController.

(** The carousels after the rotations [ticks], given by the numbers of the
    carousels in the order their callbacks run. *)
Definition rotations (carousels : list (option string)) (ticks : list nat)
  : ImageCarouselController.t :=
  fold_left (fun c i => ImageCarouselController.rotate carousels i c) ticks
            (ImageCarouselController.new carousels).

(** The carousel number [i] has the category [cat]. *)
Definition has_category (carousels : list (option string)) (cat : string)
           (i : nat) : bool :=
  match nth_error carousels i with
  | Some (Some cat') => String.eqb cat' cat
  | _ => false
  end.

(** [n] rounds in which the first carousel rotates, then the second. *)
Fixpoint alternate (n : nat) : list nat :=
  match n with
  | O => []
  | S n' => 0%nat :: 1%nat :: alternate n'
  end.

(** * Properties *)

(** ** One axis of the wrap *)

Lemma num_nonneg (n : N) : 0 <= num n.
Proof.
  unfold num. apply IZR_le. apply N2Z.is_nonneg.
Qed.

Lemma num_pos (n : N) : (0 < n)%N -> 0 < num n.
Proof.
  intros Hn. unfold num. apply IZR_lt. lia.
Qed.

Section Wrap.

Variable dim : R.
Hypothesis dim_nonneg : 0 <= dim.

Lemma wrap_above (v : R) : v > dim -> Particle.wrap dim v = 0.
Proof.
  intros Hv. unfold Particle.wrap.
  destruct (Rgt_dec v dim) as [_ | Hn]; [| contradiction].
  destruct (Rlt_dec 0 0) as [H0 | _]; [lra | reflexivity].
Qed.

Lemma wrap_below (v : R) : v < 0 -> Particle.wrap dim v = dim.
Proof.
  intros Hv. unfold Particle.wrap.
  destruct (Rgt_dec v dim) as [Hg | _]; [lra |].
  destruct (Rlt_dec v 0) as [_ | Hn]; [reflexivity | contradiction].
Qed.

Lemma wrap_inside (v : R) : 0 <= v <= dim -> Particle.wrap dim v = v.
Proof.
  intros [H0 Hd]. unfold Particle.wrap.
  destruct (Rgt_dec v dim) as [Hg | _]; [lra |].
  destruct (Rlt_dec v 0) as [Hl | _]; [lra | reflexivity].
Qed.

Lemma wrap_range (v : R) : 0 <= Particle.wrap dim v <= dim.
Proof.
  destruct (Rgt_dec v dim) as [Hg | Hg].
  - rewrite wrap_above by assumption. lra.
  - destruct (Rlt_dec v 0) as [Hl | Hl].
    + rewrite wrap_below by assumption. lra.
    + rewrite wrap_inside by lra. lra.
Qed.

End Wrap.

(** ** Particle.update *)

Lemma update_canvas (h : Heap) (p : Particle.t) :
  Particle.canvas (Particle.update h p) = Particle.canvas p.
Proof. reflexivity. Qed.

Lemma update_attributes (h : Heap) (p : Particle.t) :
  attributes (Particle.update h p) = attributes p.
Proof. reflexivity. Qed.

Lemma update_in_box (h : Heap) (p : Particle.t) :
  in_box h (Particle.update h p).
Proof.
  unfold in_box, W, H. rewrite update_canvas. simpl.
  split; apply wrap_range; apply num_nonneg.
Qed.

Lemma updates_canvas (n : nat) (h : Heap) (p : Particle.t) :
  Particle.canvas (updates n h p) = Particle.canvas p.
Proof.
  induction n as [| n IH]; simpl; [reflexivity | assumption].
Qed.

Lemma updates_attributes (n : nat) (h : Heap) (p : Particle.t) :
  attributes (updates n h p) = attributes p.
Proof.
  induction n as [| n IH]; simpl; [reflexivity |].
  rewrite update_attributes. exact IH.
Qed.

Lemma updates_in_box (n : nat) (h : Heap) (p : Particle.t) :
  in_box h (updates (S n) h p).
Proof.
  simpl. pose proof (update_in_box h (updates n h p)) as Hb.
  unfold in_box, W, H in *. rewrite update_canvas in *.
  rewrite updates_canvas in Hb. rewrite updates_canvas. exact Hb.
Qed.

(** ** The particle system *)

Lemma createParticles_spec (random : Random) (n : nat) (cv : loc) :
  forall (ps : list Particle.t) (w : World),
    let r := ParticleSystem.createParticles random n cv ps w in
    List.length (fst r) = (List.length ps + n)%nat /\
    (Forall (fun p => Particle.canvas p = cv) ps ->
     Forall (fun p => Particle.canvas p = cv) (fst r)) /\
    heap (snd r) = heap w /\ document (snd r) = document w.
Proof.
  induction n as [| n IH]; intros ps w; simpl.
  - repeat split; auto.
  - destruct (IH (ps ++ [fst (Particle.new random w cv)])
                 (snd (Particle.new random w cv)))
      as (Hlen & Hcv & Hheap & Hdoc).
    unfold Particle.new, Particle.reset in *. simpl in *.
    repeat split.
    + rewrite Hlen, length_app. simpl. lia.
    + intros Hps. apply Hcv. apply Forall_app. split; [exact Hps |].
      constructor; [reflexivity | constructor].
    + exact Hheap.
    + exact Hdoc.
Qed.

Lemma animate_particles (s : ParticleSystem.t) (w : World) :
  ParticleSystem.particles (fst (ParticleSystem.animate s w))
  = map (Particle.update (heap w)) (ParticleSystem.particles s).
Proof. reflexivity. Qed.

Lemma animate_canvas (s : ParticleSystem.t) (w : World) :
  ParticleSystem.canvas (fst (ParticleSystem.animate s w))
  = ParticleSystem.canvas s.
Proof. reflexivity. Qed.

Lemma animate_aliased (s : ParticleSystem.t) (w : World) :
  aliased s -> aliased (fst (ParticleSystem.animate s w)).
Proof.
  unfold aliased. rewrite animate_particles, animate_canvas.
  intros Hs. apply Forall_map. eapply Forall_impl; [| exact Hs].
  intros p Hp. rewrite update_canvas. exact Hp.
Qed.

Lemma animate_within (s : ParticleSystem.t) (w : World) :
  aliased s ->
  Forall (within (heap w (ParticleSystem.canvas s)))
         (ParticleSystem.particles (fst (ParticleSystem.animate s w))).
Proof.
  unfold aliased. rewrite animate_particles.
  intros Hs. apply Forall_map. eapply Forall_impl; [| exact Hs].
  intros p Hp. pose proof (update_in_box (heap w) p) as Hb.
  unfold in_box, W, H in Hb. rewrite update_canvas, Hp in Hb. exact Hb.
Qed.

(** What the constructor establishes. *)
Lemma new_spec (random : Random) (w : World) (id : string) (n : nat)
      (s : ParticleSystem.t) (w' : World) (tr : list DrawCmd) :
  ParticleSystem.new random w id n = Return (s, w', tr) ->
  document w id = Some (ParticleSystem.canvas s) /\
  aliased s /\
  List.length (ParticleSystem.particles s) = n /\
  heap w' (ParticleSystem.canvas s) = mkCanvas (innerWidth w) (innerHeight w) /\
  Forall (within (heap w' (ParticleSystem.canvas s)))
         (ParticleSystem.particles s).
Proof.
  unfold ParticleSystem.new, deref.
  destruct (document w id) as [cv |] eqn:Hdoc; simpl; [| discriminate].
  unfold ParticleSystem.init. simpl.
  set (w1 := ParticleSystem.resizeCanvas _ w).
  pose proof (createParticles_spec random n cv [] w1) as Hc.
  destruct (ParticleSystem.createParticles random n cv [] w1) as [ps w2].
  simpl in Hc. destruct Hc as (Hlen & Hcv & Hheap & _).
  set (s0 := ParticleSystem.mk cv ps n).
  assert (Hal : aliased s0) by (apply Hcv; constructor).
  pose proof (animate_aliased s0 w2 Hal) as Hal'.
  pose proof (animate_within s0 w2 Hal) as Hin.
  unfold ParticleSystem.animate in *. simpl in Hal', Hin.
  intros Heq. injection Heq as <- <- <-. simpl.
  repeat split.
  - exact Hal'.
  - rewrite length_map. exact Hlen.
  - rewrite Hheap. subst w1. unfold ParticleSystem.resizeCanvas, store. simpl.
    rewrite Nat.eqb_refl. reflexivity.
  - exact Hin.
Qed.

(** ** Frames and resize events *)

Lemma step_Frame (s : ParticleSystem.t) (w : World) :
  fst (step Frame (s, w)) = (fst (ParticleSystem.animate s w), w).
Proof. reflexivity. Qed.

Lemma step_Resize (iw ih : N) (s : ParticleSystem.t) (w : World) :
  step (Resize iw ih) (s, w)
  = ((s, ParticleSystem.resizeCanvas s (set_viewport w iw ih)), []).
Proof. reflexivity. Qed.

Lemma preserved_refl (f : Field) : preserved f f.
Proof. unfold preserved. auto. Qed.

Lemma preserved_trans (f1 f2 f3 : Field) :
  preserved f1 f2 -> preserved f2 f3 -> preserved f1 f3.
Proof.
  unfold preserved. intros (Ha & Hb & Hc & Hd) (Ha' & Hb' & Hc' & Hd').
  repeat split.
  - congruence.
  - auto.
  - congruence.
  - congruence.
Qed.

Lemma step_preserved (e : Event) (f : Field) : preserved f (fst (step e f)).
Proof.
  destruct f as [s w]. destruct e as [| iw ih].
  - unfold preserved, field_particles, aliased. simpl.
    repeat split.
    + intros Hs. apply Forall_map. eapply Forall_impl; [| exact Hs].
      intros p Hp. exact Hp.
    + apply length_map.
    + rewrite map_map. apply map_ext. intros p. apply update_attributes.
  - rewrite step_Resize. unfold preserved, field_particles. simpl. auto.
Qed.

Lemma final_cons (e : Event) (evs : list Event) (f : Field) :
  final (e :: evs) f = final evs (fst (step e f)).
Proof.
  unfold final. simpl. destruct (step e f) as [f1 tr1]. simpl.
  destruct (run evs f1) as [f2 tr2]. reflexivity.
Qed.

Lemma final_app (evs1 evs2 : list Event) (f : Field) :
  final (evs1 ++ evs2) f = final evs2 (final evs1 f).
Proof.
  revert f. induction evs1 as [| e evs1 IH]; intros f.
  - reflexivity.
  - simpl app. rewrite !final_cons. apply IH.
Qed.

Lemma final_preserved (evs : list Event) (f : Field) :
  preserved f (final evs f).
Proof.
  revert f. induction evs as [| e evs IH]; intros f.
  - apply preserved_refl.
  - rewrite final_cons. eapply preserved_trans; [apply step_preserved | apply IH].
Qed.

(** On a dimension that is not negative the two tests of the code, one
    after the other, give what the wrap rule says. *)
Lemma wrap_wrap_rule (dim v : R) :
  0 <= dim -> Particle.wrap dim v = wrap_rule dim v.
Proof.
  intros Hd. unfold wrap_rule.
  destruct (Rlt_dec dim v) as [Hgt | Hngt].
  - apply wrap_above. exact Hgt.
  - destruct (Rlt_dec v 0) as [Hlt | Hnlt].
    + apply wrap_below; assumption.
    + apply wrap_inside. lra.
Qed.

Lemma update_advance (h : Heap) (p : Particle.t) :
  Particle.update h p = advance (h (Particle.canvas p)) p.
Proof.
  unfold Particle.update, advance.
  rewrite !wrap_wrap_rule by apply num_nonneg. reflexivity.
Qed.

(** ** Claims about one particle *)

(** C2.  One [update()] adds the speed to the position and wraps each axis
    on its own: a coordinate above its dimension becomes 0, a coordinate
    below 0 becomes the dimension, any other is kept; the outcome on x
    depends on x alone and the outcome on y on y alone.  A particle at
    [x = width - 0.1] with [speedX = 1] ends at [x = 0]. *)
Theorem C2_update_wraps (h : Heap) (p : Particle.t) :
  let q := Particle.update h p in
  let x1 := Particle.x p + Particle.speedX p in
  let y1 := Particle.y p + Particle.speedY p in
  (x1 > W h p -> Particle.x q = 0) /\
  (x1 < 0 -> Particle.x q = W h p) /\
  (0 <= x1 <= W h p -> Particle.x q = x1) /\
  (y1 > H h p -> Particle.y q = 0) /\
  (y1 < 0 -> Particle.y q = H h p) /\
  (0 <= y1 <= H h p -> Particle.y q = y1) /\
  (Particle.x p = W h p - 0.1 -> Particle.speedX p = 1 -> Particle.x q = 0).
Proof.
  unfold W, H. simpl.
  pose proof (num_nonneg (width (h (Particle.canvas p)))) as Hw.
  pose proof (num_nonneg (height (h (Particle.canvas p)))) as Hh.
  repeat split.
  - apply wrap_above.
  - apply wrap_below. exact Hw.
  - apply wrap_inside.
  - apply wrap_above.
  - apply wrap_below. exact Hh.
  - apply wrap_inside.
  - intros Hx Hs. apply wrap_above. rewrite Hx, Hs. lra.
Qed.

(** The scenario of C2 on a canvas 800 by 600: from [x = 799.9] with
    [speedX = 1] the particle lands on [x = 0]. *)
Lemma C2_update_wraps_witness :
  Particle.x (Particle.update (fun _ => mkCanvas 800 600)
                              (particle_at 799.9 10 1 0)) = 0.
Proof.
  apply (C2_update_wraps (fun _ => mkCanvas 800 600)
                         (particle_at 799.9 10 1 0)).
  - unfold W, num. simpl. lra.
  - reflexivity.
Defined.

(** C7.  [update()] changes the fields [x] and [y] only: the result is the
    particle it was given with new coordinates, so the speed, the size and
    the opacity (and the canvas reference and the colour) are the same after
    one update, after any number of updates, and for every particle of a
    field after any sequence of frames and resize events. *)
Theorem C7_update_frame :
  (forall (h : Heap) (p : Particle.t),
      Particle.update h p
      = Particle.mk (Particle.canvas p)
                    (Particle.x (Particle.update h p))
                    (Particle.y (Particle.update h p))
                    (Particle.size p) (Particle.speedX p) (Particle.speedY p)
                    (Particle.opacity p) (Particle.color p)) /\
  (forall (n : nat) (h : Heap) (p : Particle.t),
      attributes (updates n h p) = attributes p) /\
  (forall (evs : list Event) (f : Field),
      map attributes (field_particles (final evs f))
      = map attributes (field_particles f)).
Proof.
  split; [| split].
  - intros h p. reflexivity.
  - intros n h p. apply updates_attributes.
  - intros evs f. apply (final_preserved evs f).
Qed.

(** C8, as the code has it.  After [reset()], and so for a particle fresh
    from the constructor, the size lies in [1, 4), the opacity in
    [0.2, 0.7], each speed in [-0.25, 0.25) and the position in
    [0, width] x [0, height], for a [Math.random] with values in [0, 1); a
    coordinate is below its dimension whenever that dimension is positive,
    and is 0 when the dimension is 0. *)
Theorem C8_reset_ranges (random : Random) (w : World) (p : Particle.t) :
  in_unit_interval random ->
  let fresh q :=
    1 <= Particle.size q < 4 /\
    0.2 <= Particle.opacity q <= 0.7 /\
    -0.25 <= Particle.speedX q < 0.25 /\
    -0.25 <= Particle.speedY q < 0.25 /\
    0 <= Particle.x q <= W (heap w) q /\
    0 <= Particle.y q <= H (heap w) q /\
    ((0 < width (heap w (Particle.canvas q)))%N ->
     Particle.x q < W (heap w) q) /\
    ((0 < height (heap w (Particle.canvas q)))%N ->
     Particle.y q < H (heap w) q) in
  fresh (fst (Particle.reset random w p)) /\
  fresh (fst (Particle.new random w (Particle.canvas p))).
Proof.
  intros Hr. unfold W, H, Particle.new. simpl.
  pose proof (num_nonneg (width (heap w (Particle.canvas p)))) as Hw0.
  pose proof (num_nonneg (height (heap w (Particle.canvas p)))) as Hh0.
  set (k := calls w).
  pose proof (Hr k) as H0. pose proof (Hr (k + 1)%nat) as H1.
  pose proof (Hr (k + 2)%nat) as H2. pose proof (Hr (k + 3)%nat) as H3.
  pose proof (Hr (k + 4)%nat) as H4. pose proof (Hr (k + 5)%nat) as H5.
  assert (Hall :
            1 <= random (k + 2)%nat * 3 + 1 < 4 /\
            0.2 <= random (k + 5)%nat * 0.5 + 0.2 <= 0.7 /\
            -0.25 <= random (k + 3)%nat * 0.5 - 0.25 < 0.25 /\
            -0.25 <= random (k + 4)%nat * 0.5 - 0.25 < 0.25 /\
            0 <= random k * num (width (heap w (Particle.canvas p)))
            <= num (width (heap w (Particle.canvas p))) /\
            0 <= random (k + 1)%nat * num (height (heap w (Particle.canvas p)))
            <= num (height (heap w (Particle.canvas p))) /\
            ((0 < width (heap w (Particle.canvas p)))%N ->
             random k * num (width (heap w (Particle.canvas p)))
             < num (width (heap w (Particle.canvas p)))) /\
            ((0 < height (heap w (Particle.canvas p)))%N ->
             random (k + 1)%nat * num (height (heap w (Particle.canvas p)))
             < num (height (heap w (Particle.canvas p))))).
  { split; [lra |]. split; [lra |]. split; [lra |]. split; [lra |].
    split; [nra |]. split; [nra |]. split.
    - intros Hw. apply num_pos in Hw. nra.
    - intros Hh. apply num_pos in Hh. nra. }
  split; exact Hall.
Qed.

Lemma C8_reset_ranges_witness :
  let q := fst (Particle.reset random_half (world page 100 100)
                               (particle_at 0 0 0 0)) in
  1 <= Particle.size q < 4 /\
  0.2 <= Particle.opacity q <= 0.7 /\
  0 <= Particle.x q < 300 /\
  0 <= Particle.y q < 150.
Proof.
  pose proof (C8_reset_ranges random_half (world page 100 100)
                              (particle_at 0 0 0 0)) as Hc.
  assert (Hr : in_unit_interval random_half).
  { intros k. unfold random_half. lra. }
  destruct (Hc Hr) as [(Hs & Ho & _ & _ & Hx & Hy & Hxw & Hyh) _].
  assert (Hw : (0 < width (heap (world page 100 100)
                                (Particle.canvas (particle_at 0 0 0 0))))%N)
    by reflexivity.
  assert (Hh : (0 < height (heap (world page 100 100)
                                 (Particle.canvas (particle_at 0 0 0 0))))%N)
    by reflexivity.
  specialize (Hxw Hw). specialize (Hyh Hh).
  unfold W, H, num in *. simpl in *. lra.
Defined.

(** C8 as the spec words it fails on a canvas without width: on a viewport 0
    wide the constructor sizes the canvas to width 0, and a particle created
    on it has [x = 0], which is not in the empty range [0, 0). *)
Lemma C8_counterexample :
  let w := ParticleSystem.resizeCanvas (ParticleSystem.mk 0%nat [] 1%nat)
                                       (world page 0 600) in
  let p := fst (Particle.new random_half w 0%nat) in
  width (heap w (Particle.canvas p)) = 0%N /\
  Particle.x p = 0 /\
  ~ (0 <= Particle.x p < num (width (heap w (Particle.canvas p)))).
Proof.
  cbv zeta. unfold Particle.new, Particle.reset. simpl.
  split; [reflexivity |]. unfold num. simpl.
  split; lra.
Qed.

(** ** Claims about the field *)

(** C1, as the code has it.  Once the constructor has returned, and after
    every later frame whatever frames and resize events came before it,
    every particle of the field has [0 <= x <= width] and
    [0 <= y <= height] for the dimensions the canvas has then.  Both upper
    bounds are reached. *)
Theorem C1_positions_in_closed_box
        (random : Random) (w : World) (id : string) (n : nat)
        (s : ParticleSystem.t) (w' : World) (tr : list DrawCmd) :
  ParticleSystem.new random w id n = Return (s, w', tr) ->
  Forall (within (field_canvas (s, w'))) (field_particles (s, w')) /\
  forall evs : list Event,
    let f := final (evs ++ [Frame]) (s, w') in
    Forall (within (field_canvas f)) (field_particles f).
Proof.
  intros Hnew. apply new_spec in Hnew.
  destruct Hnew as (_ & Hal & _ & _ & Hin).
  split; [exact Hin |].
  intros evs. simpl. rewrite final_app.
  pose proof (final_preserved evs (s, w')) as (_ & Hal' & _ & _).
  specialize (Hal' Hal).
  destruct (final evs (s, w')) as [s1 w1].
  unfold final. simpl. unfold field_canvas, field_particles. simpl.
  apply (animate_within s1 w1 Hal').
Qed.

Lemma C1_positions_in_closed_box_witness :
  let r := ParticleSystem.init random_edge (ParticleSystem.mk 0%nat [] 1%nat)
                               (world page 128 128) in
  let f := final [Resize 64 64; Frame] (fst r) in
  Forall (within (field_canvas f)) (field_particles f).
Proof.
  intros r f.
  exact (proj2 (C1_positions_in_closed_box random_edge (world page 128 128)
                  "particleCanvas" 1%nat (fst (fst r)) (snd (fst r)) (snd r)
                  eq_refl)
               [Resize 64 64]).
Defined.

(** C1 as the spec words it fails: the first particle of a field of one, on
    a viewport 128 by 128, is created at [x = 1/16] with [speedX = -1/8];
    the update of the first frame takes it to [-1/16], below 0, and so to
    [x = 128], the width itself. *)
Lemma C1_counterexample :
  exists (s : ParticleSystem.t) (w' : World) (tr : list DrawCmd)
         (p : Particle.t),
    ParticleSystem.new random_edge (world page 128 128) "particleCanvas" 1%nat
    = Return (s, w', tr) /\
    In p (ParticleSystem.particles s) /\
    width (field_canvas (s, w')) = 128%N /\
    Particle.x p = 128 /\
    ~ (Particle.x p < num (width (field_canvas (s, w')))).
Proof.
  eexists. eexists. eexists. eexists.
  split; [reflexivity |].
  split; [left; reflexivity |].
  split; [reflexivity |].
  assert (Hx : Particle.wrap (num 128)
                 (random_edge 0%nat * num 128 + (random_edge 3%nat * 0.5 - 0.25))
               = 128).
  { unfold random_edge, num. simpl.
    rewrite wrap_below; lra. }
  split.
  - exact Hx.
  - unfold field_canvas. simpl.
    change (~ Particle.wrap (num 128)
                (random_edge 0%nat * num 128 + (random_edge 3%nat * 0.5 - 0.25))
              < num 128).
    rewrite Hx. unfold num. simpl. lra.
Qed.

(** C5.  The constructor leaves the field with [particleCount] particles,
    and the field has that many after any sequence of frames and resize
    events. *)
Theorem C5_particle_count
        (random : Random) (w : World) (id : string) (n : nat)
        (s : ParticleSystem.t) (w' : World) (tr : list DrawCmd) :
  ParticleSystem.new random w id n = Return (s, w', tr) ->
  List.length (ParticleSystem.particles s) = n /\
  forall evs : list Event,
    List.length (field_particles (final evs (s, w'))) = n.
Proof.
  intros Hnew. apply new_spec in Hnew.
  destruct Hnew as (_ & _ & Hlen & _).
  split; [exact Hlen |].
  intros evs.
  pose proof (final_preserved evs (s, w')) as (_ & _ & Hl & _).
  rewrite Hl. exact Hlen.
Qed.

Lemma C5_particle_count_witness :
  match ParticleSystem.new random_half (world page 800 600)
                           "particleCanvas" 60 with
  | Return (s, w', _) =>
      List.length
        (field_particles (final [Frame; Resize 400 300; Frame; Frame] (s, w')))
      = 60%nat
  | Throw _ => False
  end.
Proof.
  destruct (ParticleSystem.new random_half (world page 800 600)
                               "particleCanvas" 60)
    as [[[s w'] tr] | e] eqn:Hnew.
  - exact (proj2 (C5_particle_count _ _ _ _ _ _ _ Hnew)
                 [Frame; Resize 400 300; Frame; Frame]).
  - unfold ParticleSystem.new in Hnew.
    change (deref (document (world page 800 600)) "particleCanvas")
      with (@Return loc 0%nat) in Hnew.
    discriminate Hnew.
Defined.

(** Frames with no resize in between: each is one [advance] of every
    particle against the canvas as it is. *)
Lemma frames_advance (c : Canvas) (k : nat) :
  forall (s : ParticleSystem.t) (w : World),
    aliased s ->
    heap w (ParticleSystem.canvas s) = c ->
    field_particles (final (repeat Frame k) (s, w))
    = map (Nat.iter k (advance c)) (ParticleSystem.particles s).
Proof.
  induction k as [| k IH]; intros s w Hal Hc.
  - unfold final, field_particles. simpl. symmetry. apply map_id.
  - simpl repeat. rewrite final_cons, step_Frame.
    rewrite IH.
    + rewrite animate_particles, map_map.
      apply map_ext_in. intros p Hp.
      unfold aliased in Hal. rewrite Forall_forall in Hal.
      rewrite Nat.iter_succ_r.
      rewrite update_advance, (Hal p Hp), Hc. reflexivity.
    + apply animate_aliased. exact Hal.
    + rewrite animate_canvas. exact Hc.
Qed.

(** C9.  In a field built by the constructor, after any events, a resize
    event leaves the particle system (each particle, each field) as it was,
    draws nothing, sets the dimensions of the field's canvas to the new
    viewport and changes no other element; each of the frames that follow is
    one simulation step of the specification against the new dimensions: a
    coordinate that exceeds the new dimension goes to 0, one below 0 to the
    new dimension. *)
Theorem C9_resize_keeps_particles
        (random : Random) (w : World) (id : string) (n : nat)
        (s0 : ParticleSystem.t) (w0 : World) (tr : list DrawCmd) :
  ParticleSystem.new random w id n = Return (s0, w0, tr) ->
  forall (evs : list Event) (iw ih : N),
    let f := final evs (s0, w0) in
    let r := step (Resize iw ih) f in
    fst (fst r) = fst f /\
    snd r = [] /\
    field_canvas (fst r) = mkCanvas iw ih /\
    (forall l : loc, l <> ParticleSystem.canvas (fst f) ->
                     heap (snd (fst r)) l = heap (snd f) l) /\
    forall k : nat,
      field_particles (final (repeat Frame k) (fst r))
      = map (Nat.iter k (advance (mkCanvas iw ih))) (field_particles f).
Proof.
  intros Hnew evs iw ih. apply new_spec in Hnew.
  destruct Hnew as (_ & Hal & _).
  pose proof (final_preserved evs (s0, w0)) as (_ & Hal' & _).
  specialize (Hal' Hal). simpl.
  destruct (final evs (s0, w0)) as [s w1].
  rewrite step_Resize. unfold field_canvas. simpl in *.
  assert (Hc : store (heap w1) (ParticleSystem.canvas s) (mkCanvas iw ih)
                     (ParticleSystem.canvas s) = mkCanvas iw ih).
  { unfold store. rewrite Nat.eqb_refl. reflexivity. }
  repeat split.
  - exact Hc.
  - intros l Hl. unfold store.
    destruct (Nat.eqb_spec l (ParticleSystem.canvas s)) as [He | _];
      [contradiction | reflexivity].
  - intros k. apply frames_advance; [exact Hal' | exact Hc].
Qed.

(** The resize scenario: on a viewport 800 by 600 the particle created at
    [x = 500] with [speedX = 1/8] is at [500.125] after the first frame;
    after a resize to 400 by 300 the next frame takes it to [x = 0], against
    the new width. *)
Lemma C9_resize_keeps_particles_witness :
  let r := ParticleSystem.init random_scenario
                               (ParticleSystem.mk 0%nat [] 1%nat)
                               (world page 800 600) in
  map Particle.x (field_particles (fst r)) = [500.125] /\
  map Particle.x
      (field_particles (final [Frame] (fst (step (Resize 400 300) (fst r)))))
  = [0].
Proof.
  intros r.
  pose proof (C9_resize_keeps_particles random_scenario (world page 800 600)
                "particleCanvas" 1%nat (fst (fst r)) (snd (fst r)) (snd r)
                eq_refl [] 400%N 300%N) as Hc.
  destruct Hc as (_ & _ & _ & _ & Hk). specialize (Hk 1%nat).
  assert (Hn8 : num 800 = 800) by (unfold num; simpl; reflexivity).
  assert (Hn4 : num 400 = 400) by (unfold num; simpl; reflexivity).
  assert (H1 : Particle.wrap (num 800) (5 / 8 * num 800 + (3 / 4 * 0.5 - 0.25))
               = 500.125).
  { rewrite wrap_inside; rewrite Hn8; lra. }
  assert (Hx : map Particle.x (field_particles (fst r)) = [500.125]).
  { unfold field_particles. simpl. rewrite H1. reflexivity. }
  split; [exact Hx |].
  transitivity
    (map Particle.x
         (map (Nat.iter 1 (advance (mkCanvas 400 300)))
              (field_particles (fst r)))).
  - f_equal. exact Hk.
  - unfold field_particles. simpl. rewrite H1, Hn4. unfold wrap_rule.
    destruct (Rlt_dec 400 (500.125 + (3 / 4 * 0.5 - 0.25))) as [_ | Hn];
      [reflexivity | lra].
Defined.

(** The resize scenario: on a viewport 800 by 600 the particle created at
    [x = 500] with [speedX = 1/8] is at [500.125] after the first frame; a
    further frame takes it to [500.25], but after a resize to 400 by 300
    that frame takes it to [x = 0]. *)
Lemma resize_scenario :
  let r := ParticleSystem.init random_scenario
                               (ParticleSystem.mk 0%nat [] 1%nat)
                               (world page 800 600) in
  map Particle.x (field_particles (fst r)) = [500.125] /\
  map Particle.x (field_particles (final [Frame] (fst r))) = [500.25] /\
  map Particle.x (field_particles (final [Resize 400 300; Frame] (fst r)))
  = [0].
Proof.
  assert (Hn8 : num 800 = 800) by (unfold num; simpl; reflexivity).
  assert (Hn4 : num 400 = 400) by (unfold num; simpl; reflexivity).
  assert (H1 : Particle.wrap (num 800) (5 / 8 * num 800 + (3 / 4 * 0.5 - 0.25))
               = 500.125).
  { rewrite wrap_inside; rewrite Hn8; lra. }
  unfold final, field_particles. simpl. rewrite !H1.
  repeat split.
  - rewrite wrap_inside; [f_equal; lra | rewrite Hn8; lra].
  - rewrite wrap_above; [reflexivity | rewrite Hn4; lra].
Qed.

(** ** The connection pass *)

Lemma NoDup_flat_map_keyed {A B : Type} (key : B -> A) (f : A -> list B)
      (l : list A) :
  NoDup l ->
  (forall a : A, NoDup (f a)) ->
  (forall (a : A) (b : B), In b (f a) -> key b = a) ->
  NoDup (flat_map f l).
Proof.
  intros Hl Hf Hkey. induction Hl as [| a l Hnin Hl IH]; simpl.
  - constructor.
  - apply NoDup_app; [apply Hf | exact IH |].
    intros b Hb Hb'. apply in_flat_map in Hb'.
    destruct Hb' as (a' & Ha' & Hb').
    apply Hkey in Hb. apply Hkey in Hb'. congruence.
Qed.

(** The distance the code computes is the Euclidean distance. *)
Lemma distance_euclidean (a b : Particle.t) :
  ParticleSystem.distance a b = euclidean a b.
Proof.
  unfold ParticleSystem.distance, euclidean. f_equal. ring.
Qed.

Lemma euclidean_nonneg (a b : Particle.t) : 0 <= euclidean a b.
Proof. unfold euclidean. apply sqrt_pos. Qed.

Lemma linked_In (ps : list Particle.t) (i j : nat) (ij : nat * nat) :
  In ij (ParticleSystem.linked ps i j) <-> ij = (i, j) /\ close ps i j.
Proof.
  unfold ParticleSystem.linked, close, ParticleSystem.maxDistance.
  destruct (nth_error ps i) as [a |]; [destruct (nth_error ps j) as [b |] |].
  - rewrite (distance_euclidean a b).
    destruct (Rlt_dec (euclidean a b) 120) as [Hd | Hd].
    + simpl. split.
      * intros [He | []]. split; [congruence |]. exists a, b. auto.
      * intros [He _]. left. congruence.
    + simpl. split; [intros [] |].
      intros (_ & a' & b' & Ha & Hb & Hlt).
      injection Ha as <-. injection Hb as <-. contradiction.
  - simpl. split; [intros [] |].
    intros (_ & a' & b' & _ & Hb & _). discriminate.
  - simpl. split; [intros [] |].
    intros (_ & a' & b' & Ha & _). discriminate.
Qed.

Lemma linked_NoDup (ps : list Particle.t) (i j : nat) :
  NoDup (ParticleSystem.linked ps i j).
Proof.
  unfold ParticleSystem.linked.
  destruct (nth_error ps i); [destruct (nth_error ps j) |];
    try constructor.
  destruct (Rlt_dec _ _); repeat constructor. intros [].
Qed.

Lemma connections_In (ps : list Particle.t) (i j : nat) :
  In (i, j) (ParticleSystem.connections ps)
  <-> (i < j < List.length ps)%nat /\ close ps i j.
Proof.
  unfold ParticleSystem.connections. rewrite in_flat_map. split.
  - intros (i0 & Hi0 & Hin). rewrite in_flat_map in Hin.
    destruct Hin as (j0 & Hj0 & Hin).
    apply linked_In in Hin. destruct Hin as [He Hc].
    injection He as -> ->.
    apply in_seq in Hi0. apply in_seq in Hj0.
    split; [lia | exact Hc].
  - intros [Hij Hc]. exists i. split; [apply in_seq; lia |].
    rewrite in_flat_map. exists j. split; [apply in_seq; lia |].
    apply linked_In. split; [reflexivity | exact Hc].
Qed.

Lemma connections_NoDup (ps : list Particle.t) :
  NoDup (ParticleSystem.connections ps).
Proof.
  unfold ParticleSystem.connections.
  apply (NoDup_flat_map_keyed fst).
  - apply seq_NoDup.
  - intros i. apply (NoDup_flat_map_keyed snd).
    + apply seq_NoDup.
    + intros j. apply linked_NoDup.
    + intros j ij Hin. apply linked_In in Hin. destruct Hin as [-> _].
      reflexivity.
  - intros i ij Hin. apply in_flat_map in Hin.
    destruct Hin as (j & _ & Hin).
    apply linked_In in Hin. destruct Hin as [-> _]. reflexivity.
Qed.

Lemma strokes_of (ps : list Particle.t) (l : list (nat * nat)) :
  (forall ij : nat * nat, In ij l -> close ps (fst ij) (snd ij)) ->
  Forall2 (line_of ps) l (flat_map (ParticleSystem.stroke ps) l).
Proof.
  induction l as [| ij l IH]; intros Hl; simpl.
  - constructor.
  - destruct (Hl ij (or_introl eq_refl)) as (a & b & Ha & Hb & _).
    unfold ParticleSystem.stroke at 1. rewrite Ha, Hb. simpl.
    constructor.
    + exists a, b. split; [exact Ha |]. split; [exact Hb |].
      unfold ParticleSystem.lineOpacity, ParticleSystem.maxDistance.
      rewrite distance_euclidean. reflexivity.
    + apply IH. intros ij' Hin. apply Hl. right. exact Hin.
Qed.

Lemma connections_close (ps : list Particle.t) (ij : nat * nat) :
  In ij (ParticleSystem.connections ps) ->
  (fst ij < snd ij < List.length ps)%nat /\ close ps (fst ij) (snd ij).
Proof.
  destruct ij as [i j]. simpl. apply connections_In.
Qed.

Lemma distance_sym (a b : Particle.t) :
  ParticleSystem.distance a b = ParticleSystem.distance b a.
Proof.
  unfold ParticleSystem.distance. f_equal. ring.
Qed.

(** The kept pairs and the lines drawn for them. *)
Lemma pairs_and_lines :
  forall ps : list Particle.t,
    (forall i j : nat,
        In (i, j) (ParticleSystem.connections ps)
        <-> (i < j < List.length ps)%nat /\ close ps i j) /\
    Forall2 (line_of ps) (ParticleSystem.connections ps)
            (ParticleSystem.drawConnections ps).
Proof.
  intros ps. split; [apply connections_In |].
  unfold ParticleSystem.drawConnections. apply strokes_of.
  intros ij Hin. apply connections_close. exact Hin.
Qed.

(** C4.  The distance the connection pass computes is the Euclidean
    distance of the two positions, whichever particle comes first.  The
    pairs the pass keeps are the index pairs [i < j] of particles at
    Euclidean distance below 120, each once, and the pass strokes one line
    for each of them, in order; when every pair is at Euclidean distance 120
    or more nothing is drawn. *)
Theorem C4_one_line_per_close_pair (ps : list Particle.t) :
  (forall a b : Particle.t,
      ParticleSystem.distance a b
      = sqrt ((Particle.x a - Particle.x b) ^ 2
              + (Particle.y a - Particle.y b) ^ 2) /\
      ParticleSystem.distance a b = ParticleSystem.distance b a) /\
  (forall i j : nat,
      In (i, j) (ParticleSystem.connections ps)
      <-> (i < j < List.length ps)%nat /\ close ps i j) /\
  NoDup (ParticleSystem.connections ps) /\
  Forall2 (line_of ps) (ParticleSystem.connections ps)
          (ParticleSystem.drawConnections ps) /\
  ((forall (i j : nat) (a b : Particle.t),
       (i < j)%nat -> nth_error ps i = Some a -> nth_error ps j = Some b ->
       120 <= euclidean a b) ->
   ParticleSystem.drawConnections ps = []).
Proof.
  split.
  { intros a b. split; [apply distance_euclidean | apply distance_sym]. }
  split; [apply connections_In |].
  split; [apply connections_NoDup |].
  split.
  - unfold ParticleSystem.drawConnections. apply strokes_of.
    intros ij Hin. apply connections_close. exact Hin.
  - intros Hfar. unfold ParticleSystem.drawConnections.
    assert (He : ParticleSystem.connections ps = []).
    { destruct (ParticleSystem.connections ps) as [| [i j] l] eqn:Hc;
        [reflexivity |].
      assert (Hin : In (i, j) (ParticleSystem.connections ps))
        by (rewrite Hc; left; reflexivity).
      apply connections_In in Hin.
      destruct Hin as [[Hij _] (a & b & Ha & Hb & Hlt)].
      pose proof (Hfar i j a b Hij Ha Hb). lra. }
    rewrite He. reflexivity.
Qed.

(** The Euclidean distance of two particles on a vertical line. *)
Lemma euclidean_vertical (px y1 y2 sx sy sx' sy' : R) :
  y1 <= y2 ->
  euclidean (particle_at px y1 sx sy) (particle_at px y2 sx' sy') = y2 - y1.
Proof.
  intros Hy. unfold euclidean, particle_at. simpl.
  replace ((px - px) * ((px - px) * 1) + (y1 - y2) * ((y1 - y2) * 1))
    with ((y2 - y1) * (y2 - y1)) by ring.
  apply sqrt_square. lra.
Qed.

(** Of the particles at (10, 10), (10, 50) and (10, 210) the first two, 40
    apart, are joined by a line and no other pair is; the first and the
    third alone, 200 apart, get no line. *)
Lemma C4_one_line_per_close_pair_witness :
  (forall i j : nat,
      In (i, j) (ParticleSystem.connections [pA; pB; pC])
      <-> i = 0%nat /\ j = 1%nat) /\
  ParticleSystem.drawConnections [pA; pC] = [].
Proof.
  assert (Hab : euclidean pA pB = 40).
  { unfold pA, pB. rewrite euclidean_vertical; lra. }
  assert (Hac : euclidean pA pC = 200).
  { unfold pA, pC. rewrite euclidean_vertical; lra. }
  assert (Hbc : euclidean pB pC = 160).
  { unfold pB, pC. rewrite euclidean_vertical; lra. }
  split.
  - intros i j.
    destruct (C4_one_line_per_close_pair [pA; pB; pC]) as (_ & Hin & _).
    rewrite (Hin i j). unfold close. split.
    + intros [[Hij Hj] (a & b & Ha & Hb & Hd)].
      simpl in Hj.
      destruct i as [| [| i]]; destruct j as [| [| [| j]]]; try lia;
        simpl in Ha, Hb; injection Ha as <-; injection Hb as <-;
        try (split; reflexivity); lra.
    + intros [-> ->]. split; [simpl; lia |].
      exists pA, pB. repeat split. lra.
  - apply (C4_one_line_per_close_pair [pA; pC]).
    intros i j a b Hij Ha Hb.
    destruct i as [| i]; [destruct j as [| [| j]] |].
    + lia.
    + injection Ha as <-. injection Hb as <-. lra.
    + simpl in Hb. destruct j; discriminate.
    + destruct j as [| j]; [lia |].
      simpl in Ha, Hb. destruct i; simpl in Ha; [| destruct i; discriminate].
      destruct j as [| j]; [lia |]. simpl in Hb. destruct j; discriminate.
Defined.

(** Vertical pairs of the scenarios: the distance is the difference of the
    ordinates. *)
Lemma distance_vertical (px y1 y2 sx sy sx' sy' : R) :
  y1 <= y2 ->
  ParticleSystem.distance (particle_at px y1 sx sy) (particle_at px y2 sx' sy')
  = y2 - y1.
Proof.
  intros Hy. unfold ParticleSystem.distance, particle_at. simpl.
  replace ((px - px) * (px - px) + (y1 - y2) * (y1 - y2))
    with ((y2 - y1) * (y2 - y1)) by ring.
  apply sqrt_square. lra.
Qed.

(** Three particles on a vertical line, at ordinates 10, 50 and 210: of the
    three pairs only the first two particles are close, and one line joins
    them, with opacity [(1 - 40 / 120) * 0.2]. *)
Lemma connections_example :
  ParticleSystem.connections [pA; pB; pC] = [(0%nat, 1%nat)] /\
  ParticleSystem.drawConnections [pA; pB; pC]
  = [StrokeLine ((1 - 40 / 120) * 0.2) 10 10 10 50].
Proof.
  assert (Hab : ParticleSystem.distance pA pB = 40).
  { unfold pA, pB. rewrite distance_vertical; lra. }
  assert (Hac : ParticleSystem.distance pA pC = 200).
  { unfold pA, pC. rewrite distance_vertical; lra. }
  assert (Hbc : ParticleSystem.distance pB pC = 160).
  { unfold pB, pC. rewrite distance_vertical; lra. }
  assert (Hc : ParticleSystem.connections [pA; pB; pC] = [(0%nat, 1%nat)]).
  { unfold ParticleSystem.connections, ParticleSystem.linked,
      ParticleSystem.maxDistance. simpl.
    rewrite Hab, Hac, Hbc.
    destruct (Rlt_dec 40 120) as [_ | Hn]; [| lra].
    destruct (Rlt_dec 200 120) as [Hn | _]; [lra |].
    destruct (Rlt_dec 160 120) as [Hn | _]; [lra |].
    reflexivity. }
  split; [exact Hc |].
  unfold ParticleSystem.drawConnections. rewrite Hc.
  unfold ParticleSystem.stroke, ParticleSystem.lineOpacity,
    ParticleSystem.maxDistance. simpl.
  rewrite Hab. reflexivity.
Qed.

Lemma Forall2_In_left {A B : Type} (P : A -> B -> Prop)
      (l : list A) (l' : list B) (a : A) :
  Forall2 P l l' -> In a l -> exists b : B, In b l' /\ P a b.
Proof.
  intros HF. induction HF as [| a0 b0 l l' Hab HF IH]; intros Hin.
  - destruct Hin.
  - destruct Hin as [-> | Hin].
    + exists b0. split; [left; reflexivity | exact Hab].
    + destruct (IH Hin) as (b & Hb & HP). exists b. split; [right |]; auto.
Qed.

Lemma Forall2_In_right {A B : Type} (P : A -> B -> Prop)
      (l : list A) (l' : list B) (b : B) :
  Forall2 P l l' -> In b l' -> exists a : A, In a l /\ P a b.
Proof.
  intros HF. induction HF as [| a0 b0 l l' Hab HF IH]; intros Hin.
  - destruct Hin.
  - destruct Hin as [-> | Hin].
    + exists a0. split; [left; reflexivity | exact Hab].
    + destruct (IH Hin) as (a & Ha & HP). exists a. split; [right |]; auto.
Qed.

(** C3.  Every pair of particles at Euclidean distance [d < 120] gets a
    line of opacity [(1 - d / 120) * 0.2], and every line drawn is such a
    line, with an opacity above 0; the opacity the code computes does not
    grow with the distance, is 0.2 at distance 0 and 0 at distance 120; for
    particles placed at (10, 10) and (10, 50) the pass draws the one line
    between them, with opacity [(1 - 40 / 120) * 0.2], which is 0.1333 to
    four places. *)
Theorem C3_line_opacity :
  (forall (ps : list Particle.t) (i j : nat) (a b : Particle.t),
      (i < j)%nat ->
      nth_error ps i = Some a -> nth_error ps j = Some b ->
      sqrt ((Particle.x a - Particle.x b) ^ 2
            + (Particle.y a - Particle.y b) ^ 2) < 120 ->
      In (StrokeLine
            ((1 - sqrt ((Particle.x a - Particle.x b) ^ 2
                        + (Particle.y a - Particle.y b) ^ 2) / 120) * 0.2)
            (Particle.x a) (Particle.y a) (Particle.x b) (Particle.y b))
         (ParticleSystem.drawConnections ps)) /\
  (forall (ps : list Particle.t) (cmd : DrawCmd),
      In cmd (ParticleSystem.drawConnections ps) ->
      exists (i j : nat) (a b : Particle.t) (d : R),
        (i < j)%nat /\
        nth_error ps i = Some a /\ nth_error ps j = Some b /\
        d = sqrt ((Particle.x a - Particle.x b) ^ 2
                  + (Particle.y a - Particle.y b) ^ 2) /\
        d < 120 /\
        0 < (1 - d / 120) * 0.2 <= 0.2 /\
        cmd = StrokeLine ((1 - d / 120) * 0.2)
                         (Particle.x a) (Particle.y a)
                         (Particle.x b) (Particle.y b)) /\
  (forall d1 d2 : R,
      d1 <= d2 ->
      ParticleSystem.lineOpacity d2 <= ParticleSystem.lineOpacity d1) /\
  ParticleSystem.lineOpacity 0 = 0.2 /\
  ParticleSystem.lineOpacity 120 = 0 /\
  ParticleSystem.lineOpacity 40 = (1 - 40 / 120) * 0.2 /\
  ParticleSystem.drawConnections [pA; pB]
  = [StrokeLine ((1 - 40 / 120) * 0.2) 10 10 10 50] /\
  0.1333 < (1 - 40 / 120) * 0.2 < 0.1334.
Proof.
  pose proof pairs_and_lines as Hpl.
  split; [| split; [| split; [| split; [| split; [| split; [| split]]]]]].
  - intros ps i j a b Hij Ha Hb Hd.
    destruct (Hpl ps) as (Hin & Hlines).
    assert (Hc : In (i, j) (ParticleSystem.connections ps)).
    { apply Hin. split.
      - split; [exact Hij |]. apply nth_error_Some. congruence.
      - exists a, b. auto. }
    destruct (Forall2_In_left _ _ _ _ Hlines Hc)
      as (cmd & Hcmd & a' & b' & Ha' & Hb' & ->).
    simpl in Ha', Hb'. rewrite Ha in Ha'. rewrite Hb in Hb'.
    injection Ha' as <-. injection Hb' as <-. exact Hcmd.
  - intros ps cmd Hcmd.
    destruct (Hpl ps) as (Hin & Hlines).
    destruct (Forall2_In_right _ _ _ _ Hlines Hcmd)
      as ([i j] & Hc & a & b & Ha & Hb & ->).
    apply Hin in Hc. destruct Hc as [[Hij _] (a' & b' & Ha' & Hb' & Hd)].
    simpl in Ha, Hb. rewrite Ha in Ha'. rewrite Hb in Hb'.
    injection Ha' as <-. injection Hb' as <-.
    pose proof (euclidean_nonneg a b) as H0.
    exists i, j, a, b, (euclidean a b).
    repeat split; try assumption; try reflexivity; lra.
  - intros d1 d2 Hd. unfold ParticleSystem.lineOpacity,
      ParticleSystem.maxDistance. lra.
  - unfold ParticleSystem.lineOpacity, ParticleSystem.maxDistance. lra.
  - unfold ParticleSystem.lineOpacity, ParticleSystem.maxDistance. lra.
  - unfold ParticleSystem.lineOpacity, ParticleSystem.maxDistance. lra.
  - assert (Hab : ParticleSystem.distance pA pB = 40).
    { unfold pA, pB. rewrite distance_vertical; lra. }
    unfold ParticleSystem.drawConnections, ParticleSystem.connections,
      ParticleSystem.linked, ParticleSystem.maxDistance. simpl.
    rewrite Hab. destruct (Rlt_dec 40 120) as [_ | Hn]; [| lra].
    unfold ParticleSystem.stroke, ParticleSystem.lineOpacity,
      ParticleSystem.maxDistance. simpl.
    rewrite Hab. reflexivity.
  - lra.
Qed.

(** ** Start-up without the canvas *)

(** C6, as the code has it.  When the canvas id resolves to no element the
    constructor throws a [TypeError]: it returns no particle system, draws
    nothing and leaves no world behind; thrown inside the
    [DOMContentLoaded] listener, the exception ends the listener there, so
    that the listener returns no application either. *)
Theorem C6_missing_canvas_throws
        (random : Random) (w : World) (id : string) (n : nat) :
  document w id = None ->
  ParticleSystem.new random w id n
  = Throw (TypeError "Cannot read properties of null") /\
  (id = "particleCanvas"%string ->
   DOMContentLoaded random w
   = Throw (TypeError "Cannot read properties of null")).
Proof.
  intros Hdoc.
  assert (Hnew : ParticleSystem.new random w id n
                 = Throw (TypeError "Cannot read properties of null")).
  { unfold ParticleSystem.new, deref. rewrite Hdoc. reflexivity. }
  split; [exact Hnew |].
  intros ->. unfold DOMContentLoaded.
  unfold ParticleSystem.new, deref in *. rewrite Hdoc. reflexivity.
Qed.

Lemma C6_missing_canvas_throws_witness :
  DOMContentLoaded random_half (world page_without_canvas 800 600)
  = Throw (TypeError "Cannot read properties of null").
Proof.
  apply (C6_missing_canvas_throws random_half
           (world page_without_canvas 800 600) "particleCanvas" 60).
  - reflexivity.
  - reflexivity.
Defined.

(** C6 as the spec words it fails: on the page that has every element but
    the canvas, the constructor does not return and neither does the
    listener, although the music and the theme controllers alone would have
    been built. *)
Lemma C6_counterexample :
  let w := world page_without_canvas 800 600 in
  (forall r, ParticleSystem.new random_half w "particleCanvas" 60
             <> Return r) /\
  (forall r, DOMContentLoaded random_half w <> Return r) /\
  (exists mc, MusicController.new (document w) "bgAudio" "musicBtn"
              = Return mc) /\
  (exists tc, ThemeController.new (document w) "modeBtn" = Return tc).
Proof.
  simpl. repeat split.
  - intros r. discriminate.
  - intros r. discriminate.
  - eexists. reflexivity.
  - eexists. reflexivity.
Qed.

(** With the canvas in place the constructor returns, and leaves the
    document as it was. *)
Lemma new_returns (random : Random) (w : World) (id : string) (n : nat)
      (cv : loc) :
  document w id = Some cv ->
  exists (s : ParticleSystem.t) (w' : World) (tr : list DrawCmd),
    ParticleSystem.new random w id n = Return (s, w', tr) /\
    document w' = document w.
Proof.
  intros Hdoc. unfold ParticleSystem.new, deref. rewrite Hdoc.
  unfold bind, ParticleSystem.init.
  set (s0 := ParticleSystem.mk cv [] n).
  pose proof (createParticles_spec random (ParticleSystem.particleCount s0)
                (ParticleSystem.canvas s0) (ParticleSystem.particles s0)
                (ParticleSystem.resizeCanvas s0 w)) as (_ & _ & _ & Hd).
  destruct (ParticleSystem.createParticles random
              (ParticleSystem.particleCount s0) (ParticleSystem.canvas s0)
              (ParticleSystem.particles s0) (ParticleSystem.resizeCanvas s0 w))
    as [ps w2].
  unfold ParticleSystem.animate. simpl in Hd.
  eexists. eexists. eexists. split; [reflexivity | exact Hd].
Qed.

(** On the page that has every element the listener builds every
    controller. *)
Lemma DOMContentLoaded_page :
  exists r, DOMContentLoaded random_half (world page 800 600) = Return r.
Proof.
  destruct (new_returns random_half (world page 800 600) "particleCanvas" 60
              0%nat eq_refl) as (s & w' & tr & Hnew & Hdoc).
  unfold DOMContentLoaded. rewrite Hnew. unfold bind at 1.
  simpl document. rewrite Hdoc. eexists. reflexivity.
Qed.

(** ** The theme switcher *)

Lemma reachable_inv (st : ThemeController.t * Page) :
  reachable st ->
  ThemeController.themes (fst st) = ["romantic"%string; "vibrant"%string] /\
  (ThemeController.currentThemeIndex (fst st) < 2)%nat /\
  currentTheme (snd st)
  = nth (ThemeController.currentThemeIndex (fst st))
        (ThemeController.themes (fst st)) "undefined"%string.
Proof.
  intros Hr. induction Hr as [d id c attr act Hnew | c pg Hr IH].
  - unfold ThemeController.new, deref in Hnew.
    destruct (d id) as [b |]; simpl in Hnew; [| discriminate].
    injection Hnew as <-. simpl. repeat split. lia.
  - simpl in *. destruct IH as (Hth & Hidx & _).
    rewrite Hth. simpl List.length. repeat split.
    apply Nat.mod_upper_bound. discriminate.
Qed.

(** C10.  In every state the page can reach, the theme is ['romantic'] or
    ['vibrant'], one click switches to the other of the two, and two clicks
    give back the controller and the theme; once the button has been
    clicked, two more clicks give back the whole state, the [data-theme]
    attribute and the class of the button included. *)
Theorem C10_toggle_involution (c : ThemeController.t) (pg : Page) :
  reachable (c, pg) ->
  known_theme pg /\
  known_theme (snd (ThemeController.toggle c pg)) /\
  currentTheme (snd (ThemeController.toggle c pg)) <> currentTheme pg /\
  fst (toggle_twice c pg) = c /\
  currentTheme (snd (toggle_twice c pg)) = currentTheme pg /\
  toggle_twice (fst (ThemeController.toggle c pg))
               (snd (ThemeController.toggle c pg))
  = ThemeController.toggle c pg.
Proof.
  intros Hr. apply reachable_inv in Hr. simpl in Hr.
  destruct Hr as (Hth & Hidx & Hcur).
  destruct c as [b th i]. simpl in *. subst th.
  unfold known_theme, toggle_twice, ThemeController.toggle. simpl.
  rewrite Hcur.
  destruct i as [| [| i]]; [| | lia]; simpl.
  - repeat split; auto. discriminate.
  - repeat split; auto. discriminate.
Qed.

Lemma C10_toggle_involution_witness :
  fst (toggle_twice controller0 (initialPage None false)) = controller0 /\
  currentTheme (snd (toggle_twice controller0 (initialPage None false)))
  = "romantic"%string.
Proof.
  assert (Hr : reachable (controller0, initialPage None false)).
  { apply (reach_new page "modeBtn"). reflexivity. }
  destruct (C10_toggle_involution controller0 (initialPage None false) Hr)
    as (_ & _ & _ & Hc & Ht & _).
  split; [exact Hc | exact Ht].
Defined.

(** * Further properties of the script *)

(** ** Start-up *)

(** X1.  The [DOMContentLoaded] listener runs to its end exactly when the
    canvas and the four buttons exist; the audio element is not needed for
    that. *)
Theorem startup_succeeds_iff (random : Random) (w : World) :
  (exists r, DOMContentLoaded random w = Return r)
  <-> Forall (fun id => document w id <> None) required_ids.
Proof.
  unfold required_ids. split.
  - intros [r Hr]. unfold DOMContentLoaded in Hr.
    destruct (document w "particleCanvas"%string) as [cv |] eqn:Hcv.
    + destruct (new_returns random w "particleCanvas"%string 60%nat cv Hcv)
        as (s & w' & tr & Hnew & Hdoc).
      rewrite Hnew in Hr. unfold bind at 1 in Hr.
      unfold MusicController.new, ThemeController.new, buttonController,
        deref in Hr.
      simpl document in Hr. rewrite Hdoc in Hr.
      destruct (document w "musicBtn"%string) eqn:H2; [| discriminate Hr].
      destruct (document w "modeBtn"%string) eqn:H3; [| discriminate Hr].
      destruct (document w "treeBtn"%string) eqn:H4; [| discriminate Hr].
      destruct (document w "ultimateBtn"%string) eqn:H5; [| discriminate Hr].
      repeat constructor; congruence.
    + unfold ParticleSystem.new, deref in Hr. rewrite Hcv in Hr.
      discriminate Hr.
  - intros HF.
    inversion_clear HF as [| ? ? H1 HF1]. inversion_clear HF1 as [| ? ? H2 HF2].
    inversion_clear HF2 as [| ? ? H3 HF3]. inversion_clear HF3 as [| ? ? H4 HF4].
    inversion_clear HF4 as [| ? ? H5 _].
    destruct (document w "particleCanvas"%string) as [cv |] eqn:Hcv; [| contradiction].
    destruct (new_returns random w "particleCanvas"%string 60%nat cv Hcv)
      as (s & w' & tr & Hnew & Hdoc).
    unfold DOMContentLoaded. rewrite Hnew. unfold bind at 1.
    unfold MusicController.new, ThemeController.new, buttonController, deref.
    simpl document. rewrite Hdoc.
    destruct (document w "musicBtn"%string); [| contradiction].
    destruct (document w "modeBtn"%string); [| contradiction].
    destruct (document w "treeBtn"%string); [| contradiction].
    destruct (document w "ultimateBtn"%string); [| contradiction].
    eexists. reflexivity.
Qed.

(** ** The music switch *)

Lemma music_toggle_spec (c : MusicController.t) (a : loc) (allowed : bool)
      (sd : Sound) :
  MusicController.audio c = Some a ->
  exists (c' : MusicController.t) (sd' : Sound),
    MusicController.toggle c allowed sd = Return (c', sd') /\
    MusicController.audio c' = Some a /\
    MusicController.button c' = MusicController.button c /\
    MusicController.isPlaying c' = negb (MusicController.isPlaying c) /\
    musicPlaying sd' = MusicController.isPlaying c' /\
    music_button_active sd' = MusicController.isPlaying c'.
Proof.
  intros Ha. unfold MusicController.toggle, MusicController.play,
               MusicController.pause.
  rewrite Ha. destruct (MusicController.isPlaying c) eqn:Hp;
    eexists; eexists; (split; [reflexivity |]); simpl; auto.
Qed.

(** X2.  With the audio element in place no click on the music button
    throws; after [n] clicks the controller plays exactly when it played
    before and [n] is odd, or did not and [n] is even; and after at least one
    click [state.musicPlaying] and the highlight of the button agree with
    the controller. *)
Theorem music_clicks_alternate (allowed : list bool) :
  forall (c : MusicController.t) (a : loc) (sd : Sound),
    MusicController.audio c = Some a ->
    exists (c' : MusicController.t) (sd' : Sound),
      music_clicks allowed c sd = Return (c', sd') /\
      MusicController.isPlaying c'
      = xorb (MusicController.isPlaying c) (Nat.odd (List.length allowed)) /\
      (allowed <> [] ->
       musicPlaying sd' = MusicController.isPlaying c' /\
       music_button_active sd' = MusicController.isPlaying c').
Proof.
  induction allowed as [| al rest IH]; intros c a sd Ha.
  - exists c, sd. simpl. split; [reflexivity |]. split.
    + destruct (MusicController.isPlaying c); reflexivity.
    + intros Hne. contradiction.
  - destruct (music_toggle_spec c a al sd Ha)
      as (c1 & sd1 & Ht & Ha1 & _ & Hp1 & Hm1 & Hb1).
    destruct (IH c1 a sd1 Ha1) as (c2 & sd2 & Hr & Hp2 & Hagree).
    exists c2, sd2. simpl music_clicks. rewrite Ht. simpl.
    split; [exact Hr |]. split.
    + rewrite Hp2, Hp1. change (List.length (al :: rest)) with (S (List.length rest)).
      rewrite Nat.odd_succ, <- Nat.negb_odd.
      destruct (MusicController.isPlaying c), (Nat.odd (List.length rest));
        reflexivity.
    + intros _. destruct rest as [| al' rest'].
      * simpl in Hr. injection Hr as <- <-. auto.
      * apply Hagree. discriminate.
Qed.

Lemma music_clicks_alternate_witness :
  exists (c' : MusicController.t) (sd' : Sound),
    music_clicks [true; false; true] (MusicController.mk (Some 1%nat) 2%nat false)
                 (mkSound false false true [])
    = Return (c', sd') /\
    MusicController.isPlaying c' = true.
Proof.
  destruct (music_clicks_alternate [true; false; true]
              (MusicController.mk (Some 1%nat) 2%nat false) 1%nat
              (mkSound false false true []) eq_refl)
    as (c' & sd' & Hr & Hp & _).
  exists c', sd'. split; [exact Hr | exact Hp].
Defined.

(** X3.  When the browser refuses to start the playback, the click still
    turns the controller, [state.musicPlaying] and the highlight of the
    button on while the audio stays paused, and two lines go to the console;
    the next click then pauses, whether or not the browser would now allow a
    playback, so that a second attempt to play takes a third click. *)
Theorem music_refused_play (c : MusicController.t) (a : loc) (sd : Sound) :
  MusicController.audio c = Some a ->
  MusicController.isPlaying c = false ->
  audio_paused sd = true ->
  exists (c1 : MusicController.t) (sd1 : Sound),
    MusicController.toggle c false sd = Return (c1, sd1) /\
    MusicController.isPlaying c1 = true /\
    musicPlaying sd1 = true /\
    music_button_active sd1 = true /\
    audio_paused sd1 = true /\
    console sd1
    = console sd ++ ["Audio play prevented:"%string;
                     "Please interact with the page to enable music"%string] /\
    forall allowed : bool,
    exists (c2 : MusicController.t) (sd2 : Sound),
      MusicController.toggle c1 allowed sd1 = Return (c2, sd2) /\
      MusicController.isPlaying c2 = false /\
      audio_paused sd2 = true /\
      console sd2 = console sd1.
Proof.
  intros Ha Hp Hpaused.
  assert (Ht : MusicController.toggle c false sd
               = Return (MusicController.mk (Some a) (MusicController.button c)
                                            true,
                         mkSound true true true
                           (console sd
                            ++ ["Audio play prevented:"%string;
                                "Please interact with the page to enable music"%string]))).
  { unfold MusicController.toggle, MusicController.play.
    rewrite Hp, Ha, Hpaused. reflexivity. }
  eexists. eexists. split; [exact Ht |]. simpl.
  repeat split.
  intros allowed. eexists. eexists. split; [reflexivity |].
  simpl. auto.
Qed.

Lemma music_refused_play_witness :
  exists (c1 : MusicController.t) (sd1 : Sound),
    MusicController.toggle (MusicController.mk (Some 1%nat) 2%nat false) false
                           (mkSound false false true [])
    = Return (c1, sd1) /\
    MusicController.isPlaying c1 = true /\ audio_paused sd1 = true.
Proof.
  destruct (music_refused_play (MusicController.mk (Some 1%nat) 2%nat false)
              1%nat (mkSound false false true []) eq_refl eq_refl eq_refl)
    as (c1 & sd1 & Ht & Hp & _ & _ & Hpa & _).
  exists c1, sd1. auto.
Defined.

(** X4.  On a page without the audio element the music controller is still
    built, but every click on its button throws a [TypeError]: nothing is
    played and the controller never leaves its initial state. *)
Theorem music_without_audio (d : Document) (audioId buttonId : string)
        (c : MusicController.t) :
  d audioId = None ->
  MusicController.new d audioId buttonId = Return c ->
  MusicController.isPlaying c = false /\
  forall (allowed : bool) (sd : Sound),
    MusicController.toggle c allowed sd
    = Throw (TypeError "Cannot read properties of null").
Proof.
  intros Hnone Hnew. unfold MusicController.new, deref in Hnew.
  destruct (d buttonId) as [b |]; [| discriminate Hnew].
  simpl in Hnew. injection Hnew as <-. rewrite Hnone.
  split; [reflexivity |]. intros allowed sd. reflexivity.
Qed.

Lemma music_without_audio_witness :
  MusicController.toggle (MusicController.mk None 2%nat false) true
                         (mkSound false false true [])
  = Throw (TypeError "Cannot read properties of null").
Proof.
  apply (music_without_audio
           (fun id => if String.eqb id "bgAudio" then None else page id)
           "bgAudio" "musicBtn" (MusicController.mk None 2%nat false)
           eq_refl eq_refl).
Defined.

(** ** The key sequence of the Easter egg *)

Lemma slice_last_length {A : Type} (n : nat) (l : list A) :
  List.length (slice_last n l) = Nat.min n (List.length l).
Proof.
  unfold slice_last. rewrite length_skipn. lia.
Qed.

Lemma slice_last_short {A : Type} (n : nat) (l : list A) :
  (List.length l <= n)%nat -> slice_last n l = l.
Proof.
  intros Hl. unfold slice_last.
  replace (List.length l - n)%nat with 0%nat by lia. reflexivity.
Qed.

(** Cutting to the last [n] before appending changes nothing of the last
    [n] after it. *)
Lemma slice_last_absorb {A : Type} (n : nat) (l r : list A) :
  slice_last n (slice_last n l ++ r) = slice_last n (l ++ r).
Proof.
  destruct (Nat.le_gt_cases (List.length l) n) as [Hle | Hgt].
  - rewrite (slice_last_short n l Hle). reflexivity.
  - unfold slice_last at 1 3.
    rewrite !length_app, slice_last_length.
    unfold slice_last.
    replace (Nat.min n (List.length l) + List.length r - n)%nat
      with (List.length r) by lia.
    replace (List.length l + List.length r - n)%nat
      with (List.length r + (List.length l - n))%nat by lia.
    rewrite <- skipn_skipn. f_equal.
    rewrite skipn_app.
    replace (List.length l - n - List.length l)%nat with 0%nat by lia.
    reflexivity.
Qed.

Lemma keydowns_spec (keys : list string) :
  forall code : list string,
    keys <> [] -> keydowns keys code = slice_last 10 (code ++ keys).
Proof.
  induction keys as [| k rest IH]; intros code Hne; [contradiction |].
  unfold keydowns. simpl fold_left.
  destruct rest as [| k' rest'].
  - reflexivity.
  - fold (keydowns (k' :: rest') (slice_last 10 (code ++ [k]))).
    rewrite IH by discriminate.
    rewrite slice_last_absorb, <- app_assoc. reflexivity.
Qed.

(** X5.  [konamiCode] always holds the last ten keys pressed, all of them
    while there are fewer than ten, in the order they were pressed; it never
    grows beyond ten. *)
Theorem konami_buffer_last_ten (keys : list string) :
  keydowns keys [] = slice_last 10 keys /\
  List.length (keydowns keys []) = Nat.min 10 (List.length keys) /\
  forall earlier shown : list string,
    keys = earlier ++ shown -> List.length shown = 10%nat ->
    keydowns keys [] = shown.
Proof.
  assert (Hk : keydowns keys [] = slice_last 10 keys).
  { destruct keys as [| k rest]; [reflexivity |].
    rewrite keydowns_spec by discriminate. reflexivity. }
  split; [exact Hk |]. split.
  - rewrite Hk. apply slice_last_length.
  - intros earlier shown -> Hlen. rewrite Hk. unfold slice_last.
    rewrite length_app, Hlen.
    replace (List.length earlier + 10 - 10)%nat
      with (List.length earlier + 0)%nat by lia.
    rewrite skipn_app, Nat.add_0_r, skipn_all.
    replace (List.length earlier - List.length earlier)%nat with 0%nat by lia.
    reflexivity.
Qed.

Lemma append_empty_r (s : string) : (s ++ "")%string = s.
Proof.
  induction s as [| c s IH]; simpl; [reflexivity | rewrite IH; reflexivity].
Qed.

Lemma fields_nonempty (s : string) : fields s <> [].
Proof.
  destruct s as [| c s]; simpl; [discriminate |].
  destruct (Ascii.eqb c ","); [discriminate |].
  destruct (fields s); discriminate.
Qed.

(** A prefix without commas joins the first field of what follows. *)
Lemma fields_prefix (a s : string) :
  comma_free a = true ->
  fields (a ++ s)
  = (a ++ hd EmptyString (fields s))%string :: tl (fields s).
Proof.
  induction a as [| c a IH]; intros Hfree; simpl.
  - pose proof (fields_nonempty s) as Hne.
    destruct (fields s); [contradiction | reflexivity].
  - simpl in Hfree. apply andb_prop in Hfree. destruct Hfree as [Hc Ha].
    apply negb_true_iff in Hc. rewrite Hc, (IH Ha). reflexivity.
Qed.

Lemma fields_key (k : string) : key_value k -> fields k = key_fields k.
Proof.
  intros [Hfree | ->]; [| reflexivity].
  unfold key_fields. destruct (String.eqb_spec k ",") as [-> | _].
  - discriminate Hfree.
  - rewrite <- (append_empty_r k) at 1.
    rewrite fields_prefix by assumption. simpl.
    rewrite append_empty_r. reflexivity.
Qed.

(** The fields of the joined string are those of the keys, in order. *)
Lemma fields_join (l : list string) :
  l <> [] -> Forall key_value l ->
  fields (join l) = flat_map key_fields l.
Proof.
  induction l as [| k rest IH]; intros Hne HF; [contradiction |].
  inversion_clear HF as [| ? ? Hk Hrest].
  destruct rest as [| k' rest'].
  - simpl. rewrite app_nil_r. apply fields_key. exact Hk.
  - change (join (k :: k' :: rest'))
      with (k ++ "," ++ join (k' :: rest'))%string.
    change (flat_map key_fields (k :: k' :: rest'))
      with (key_fields k ++ flat_map key_fields (k' :: rest')).
    rewrite <- IH by (try discriminate; assumption).
    destruct Hk as [Hfree | ->].
    + rewrite fields_prefix by assumption.
      unfold key_fields. destruct (String.eqb_spec k ",") as [-> | _].
      * discriminate Hfree.
      * simpl. rewrite append_empty_r. reflexivity.
    + reflexivity.
Qed.

Lemma key_fields_plain (l : list string) :
  Forall (fun f => f <> EmptyString) (flat_map key_fields l) ->
  flat_map key_fields l = l.
Proof.
  induction l as [| k rest IH]; intros HF; [reflexivity |].
  simpl in *. unfold key_fields in *.
  destruct (String.eqb_spec k ",") as [-> | _].
  - inversion_clear HF as [| ? ? Hbad _]. contradiction.
  - simpl in *. inversion_clear HF as [| ? ? _ Hrest].
    rewrite (IH Hrest). reflexivity.
Qed.

Lemma Forall_skipn_keep {A : Type} (P : A -> Prop) (n : nat) (l : list A) :
  Forall P l -> Forall P (skipn n l).
Proof.
  revert l. induction n as [| n IH]; intros l HF; [exact HF |].
  destruct l as [| a l]; [constructor |].
  inversion_clear HF. simpl. apply IH. assumption.
Qed.

(** X6.  A key press calls [triggerSpecialEffect()] exactly when the last
    ten keys, this one included, are the Konami sequence; whatever was
    typed before, pressing the ten keys in order ends with the call. *)
Theorem konami_trigger_iff (code : list string) (key : string) :
  Forall key_value (code ++ [key]) ->
  (snd (keydown code key) = true
   <-> slice_last 10 (code ++ [key]) = konamiSequence) /\
  forall before : list string,
    snd (keydown (keydowns (before ++ removelast konamiSequence) [])
                 (last konamiSequence EmptyString))
    = true.
Proof.
  intros HF. split.
  - unfold keydown. simpl snd. rewrite String.eqb_eq. split.
    + intros Hj.
      set (buf := slice_last 10 (code ++ [key])) in *.
      assert (Hne : buf <> []).
      { intros He. apply (f_equal (@List.length string)) in He.
        subst buf. rewrite slice_last_length, length_app in He.
        cbn [List.length] in He. lia. }
      assert (Hkv : Forall key_value buf).
      { subst buf. unfold slice_last. apply Forall_skipn_keep. exact HF. }
      apply (f_equal fields) in Hj.
      rewrite (fields_join buf Hne Hkv) in Hj.
      assert (Hseq : fields (join konamiSequence) = konamiSequence)
        by reflexivity.
      rewrite Hseq in Hj.
      rewrite <- (key_fields_plain buf); [exact Hj |].
      rewrite Hj. unfold konamiSequence.
      repeat constructor; discriminate.
    + intros ->. reflexivity.
  - intros before. unfold keydown. cbn [snd]. rewrite String.eqb_eq.
    f_equal.
    set (typed := before ++ removelast konamiSequence).
    assert (Hne : typed <> []).
    { subst typed. unfold konamiSequence. simpl.
      destruct before; discriminate. }
    rewrite (keydowns_spec typed [] Hne). simpl app.
    rewrite slice_last_absorb. subst typed.
    rewrite <- app_assoc. unfold slice_last.
    rewrite length_app.
    replace (List.length before
             + List.length (removelast konamiSequence ++ ["a"%string])
             - 10)%nat
      with (List.length before) by (simpl; lia).
    rewrite skipn_app, skipn_all, Nat.sub_diag. reflexivity.
Qed.

Lemma konami_trigger_iff_witness :
  snd (keydown ["x"; ","; "ArrowUp"; "ArrowUp"; "ArrowDown"; "ArrowDown";
                "ArrowLeft"; "ArrowRight"; "ArrowLeft"; "ArrowRight";
                "b"]%string "a")
  = true.
Proof.
  apply (konami_trigger_iff
           ["x"; ","; "ArrowUp"; "ArrowUp"; "ArrowDown"; "ArrowDown";
            "ArrowLeft"; "ArrowRight"; "ArrowLeft"; "ArrowRight";
            "b"]%string "a").
  - repeat constructor; (left; reflexivity) || (right; reflexivity).
  - reflexivity.
Defined.

(** ** More on the particle system *)

Lemma linked_with_color (col : string) (ps : list Particle.t) (i j : nat) :
  ParticleSystem.linked (map (with_color col) ps) i j
  = ParticleSystem.linked ps i j.
Proof.
  unfold ParticleSystem.linked. rewrite !nth_error_map.
  destruct (nth_error ps i) as [a |]; [| reflexivity].
  destruct (nth_error ps j) as [b |]; reflexivity.
Qed.

Lemma connections_with_color (col : string) (ps : list Particle.t) :
  ParticleSystem.connections (map (with_color col) ps)
  = ParticleSystem.connections ps.
Proof.
  unfold ParticleSystem.connections. rewrite length_map.
  apply flat_map_ext. intros i. apply flat_map_ext. intros j.
  apply linked_with_color.
Qed.

Lemma drawConnections_with_color (col : string) (ps : list Particle.t) :
  ParticleSystem.drawConnections (map (with_color col) ps)
  = ParticleSystem.drawConnections ps.
Proof.
  unfold ParticleSystem.drawConnections. rewrite connections_with_color.
  apply flat_map_ext. intros ij. unfold ParticleSystem.stroke.
  rewrite !nth_error_map.
  destruct (nth_error ps (fst ij)) as [a |]; [| reflexivity].
  destruct (nth_error ps (snd ij)) as [b |]; reflexivity.
Qed.

Lemma animate_updateColor (col : string) (s : ParticleSystem.t) (w : World) :
  ParticleSystem.animate (ParticleSystem.updateColor col s) w
  = (ParticleSystem.updateColor col (fst (ParticleSystem.animate s w)),
     snd (ParticleSystem.animate s w)).
Proof.
  unfold ParticleSystem.animate, ParticleSystem.updateColor. simpl.
  fold (with_color col).
  assert (Hm : map (Particle.update (heap w))
                   (map (with_color col) (ParticleSystem.particles s))
               = map (with_color col)
                     (map (Particle.update (heap w))
                          (ParticleSystem.particles s))).
  { rewrite !map_map. apply map_ext. intros p. reflexivity. }
  rewrite Hm. f_equal. f_equal. f_equal.
  - rewrite !map_map. apply map_ext. intros p. reflexivity.
  - apply drawConnections_with_color.
Qed.

Lemma step_updateColor (col : string) (e : Event) (s : ParticleSystem.t)
      (w : World) :
  step e (ParticleSystem.updateColor col s, w)
  = ((ParticleSystem.updateColor col (fst (fst (step e (s, w)))),
      snd (fst (step e (s, w)))),
     snd (step e (s, w))).
Proof.
  destruct e as [| iw ih].
  - unfold step. rewrite animate_updateColor.
    destruct (ParticleSystem.animate s w) as [s1 tr1]. reflexivity.
  - reflexivity.
Qed.

(** X7.  [updateColor(color)] has no effect on what is drawn: after it
    every frame is drawn as it would have been without it, and the field
    goes through the same states but for the [color] property of its
    particles, which nothing reads. *)
Theorem updateColor_draws_nothing_new (col : string) (evs : list Event) :
  forall (s : ParticleSystem.t) (w : World),
    drawn evs (ParticleSystem.updateColor col s, w) = drawn evs (s, w) /\
    final evs (ParticleSystem.updateColor col s, w)
    = (ParticleSystem.updateColor col (fst (final evs (s, w))),
       snd (final evs (s, w))).
Proof.
  unfold drawn, final.
  induction evs as [| e evs IH]; intros s w.
  - split; reflexivity.
  - cbn [run]. rewrite step_updateColor.
    destruct (step e (s, w)) as [[s1 w1] tr1]. cbn [fst snd].
    destruct (IH s1 w1) as [Htr Hst].
    destruct (run evs (ParticleSystem.updateColor col s1, w1)) as [f2 tr2].
    destruct (run evs (s1, w1)) as [f2' tr2'].
    cbn [fst snd] in *. subst. split; reflexivity.
Qed.

Lemma linked_length (ps : list Particle.t) (i j : nat) :
  (List.length (ParticleSystem.linked ps i j) <= 1)%nat.
Proof.
  unfold ParticleSystem.linked.
  destruct (nth_error ps i); [destruct (nth_error ps j) |]; simpl; try lia.
  destruct (Rlt_dec _ _); simpl; lia.
Qed.

Lemma list_sum_le (f g : nat -> nat) (l : list nat) :
  (forall i, (f i <= g i)%nat) ->
  (list_sum (map f l) <= list_sum (map g l))%nat.
Proof.
  intros Hfg. induction l as [| a l IH]; simpl; [lia |].
  pose proof (Hfg a). lia.
Qed.

(** The pairs [i < j] below [a + k] with [a <= i]. *)
Lemma pairs_count (k : nat) :
  forall a : nat,
    (2 * list_sum (map (fun i => a + k - (i + 1)) (seq a k))
     = k * (k - 1))%nat.
Proof.
  induction k as [| k IH]; intros a; [reflexivity |].
  cbn [seq map list_sum].
  replace (map (fun i => a + S k - (i + 1)) (seq (S a) k))%nat
    with (map (fun i => S a + k - (i + 1)) (seq (S a) k))%nat.
  - specialize (IH (S a)).
    set (rest := list_sum (map (fun i => (S a + k - (i + 1))%nat)
                               (seq (S a) k))) in *.
    change (2 * ((a + S k - (a + 1)) + rest) = S k * (S k - 1))%nat.
    replace (a + S k - (a + 1))%nat with k by lia.
    replace (S k - 1)%nat with k by lia.
    destruct k as [| k']; [lia |].
    replace (S k' - 1)%nat with k' in IH by lia. lia.
  - apply map_ext. intros i. f_equal. lia.
Qed.

(** X8.  Among [n] particles the connection pass draws at most
    [n (n - 1) / 2] lines, so that a frame issues at most
    [1 + n + n (n - 1) / 2] drawing commands: one clearing, one disc for
    each particle and the lines. *)
Theorem frame_command_count (s : ParticleSystem.t) (w : World) :
  let n := List.length (ParticleSystem.particles s) in
  let ps' := ParticleSystem.particles (fst (ParticleSystem.animate s w)) in
  (2 * List.length (ParticleSystem.connections ps') <= n * (n - 1))%nat /\
  List.length (snd (ParticleSystem.animate s w))
  = (1 + n + List.length (ParticleSystem.connections ps'))%nat.
Proof.
  cbv zeta. rewrite animate_particles.
  set (ps' := map (Particle.update (heap w)) (ParticleSystem.particles s)).
  assert (Hn : List.length ps' = List.length (ParticleSystem.particles s))
    by apply length_map.
  rewrite <- Hn. split.
  - set (n := List.length ps').
    assert (Hle : (List.length (ParticleSystem.connections ps')
                   <= list_sum (map (fun i => n - (i + 1)) (seq 0 n)))%nat).
    { unfold ParticleSystem.connections. fold n.
      rewrite length_flat_map.
      apply list_sum_le. intros i.
      rewrite length_flat_map.
      transitivity
        (list_sum (map (fun _ => 1%nat) (seq (i + 1) (n - (i + 1))))).
      - apply list_sum_le. intros j. apply linked_length.
      - clear. generalize (n - (i + 1))%nat as k. generalize (i + 1)%nat as a.
        intros a k. revert a.
        induction k as [| k IH]; intros a; simpl; [lia |].
        specialize (IH (S a)). lia. }
    pose proof (pairs_count n 0) as Hp. cbn [Nat.add] in Hp. lia.
  - unfold ParticleSystem.animate. cbn [snd]. fold ps'.
    cbn [List.length]. rewrite length_app, length_map.
    pose proof (pairs_and_lines ps') as [_ HF].
    apply Forall2_length in HF. rewrite <- HF. lia.
Qed.

Lemma set_calls_same (w : World) : set_calls w (calls w) = w.
Proof. destruct w. reflexivity. Qed.

Lemma createParticles_created (random : Random) (cv : loc) (n : nat) :
  forall (ps : list Particle.t) (w : World),
    ParticleSystem.createParticles random n cv ps w
    = (ps ++ map (created random w cv) (seq 0 n),
       set_calls w (calls w + 6 * n)).
Proof.
  induction n as [| n IH]; intros ps w.
  - simpl. rewrite app_nil_r, Nat.add_0_r, set_calls_same. reflexivity.
  - cbn [ParticleSystem.createParticles].
    unfold Particle.new at 1. unfold Particle.reset at 1. cbv zeta.
    rewrite IH. f_equal.
    + rewrite <- app_assoc. f_equal. cbn [seq map app]. f_equal.
      * unfold created, Particle.new, Particle.reset. simpl.
        rewrite Nat.add_0_r. reflexivity.
      * rewrite <- seq_shift, map_map. apply map_ext. intros i.
        unfold created, Particle.new, Particle.reset. simpl.
        replace (calls w + 6 + (i + (i + (i + (i + (i + (i + 0)))))))%nat
          with (calls w + S (i + S (i + S (i + S (i + S (i + S (i + 0)))))))%nat
          by lia.
        reflexivity.
    + unfold set_calls. simpl. f_equal. lia.
Qed.

(** X9.  The constructor sizes the canvas to the viewport, then makes
    exactly six calls of [Math.random()] for each particle and no other: the
    [i]-th particle of the field is the one created from the calls number
    [6 i] to [6 i + 5], moved by the update of the first frame; nothing else
    of the world changes. *)
Theorem constructor_draws_six_per_particle
        (random : Random) (w : World) (id : string) (n : nat) (cv : loc)
        (s : ParticleSystem.t) (w' : World) (tr : list DrawCmd) :
  document w id = Some cv ->
  ParticleSystem.new random w id n = Return (s, w', tr) ->
  let w1 := ParticleSystem.resizeCanvas (ParticleSystem.mk cv [] n) w in
  heap w1 cv = mkCanvas (innerWidth w) (innerHeight w) /\
  w' = set_calls w1 (calls w + 6 * n) /\
  ParticleSystem.particles s
  = map (fun i => Particle.update (heap w1) (created random w1 cv i))
        (seq 0 n).
Proof.
  intros Hdoc Hnew. unfold ParticleSystem.new, deref in Hnew.
  rewrite Hdoc in Hnew. unfold bind, ParticleSystem.init in Hnew.
  cbn [ParticleSystem.particleCount ParticleSystem.canvas
       ParticleSystem.particles] in Hnew.
  rewrite createParticles_created in Hnew.
  unfold ParticleSystem.animate in Hnew. cbn [app] in Hnew.
  injection Hnew as <- <- _. cbv zeta. split; [| split].
  - unfold ParticleSystem.resizeCanvas, store. simpl.
    rewrite Nat.eqb_refl. reflexivity.
  - reflexivity.
  - cbn [ParticleSystem.particles]. rewrite map_map. reflexivity.
Qed.

Lemma constructor_draws_six_per_particle_witness :
  match ParticleSystem.new random_half (world page 800 600)
                           "particleCanvas" 60 with
  | Return (_, w', _) => calls w' = 360%nat
  | Throw _ => False
  end.
Proof.
  destruct (ParticleSystem.new random_half (world page 800 600)
                               "particleCanvas" 60)
    as [[[s w'] tr] | e] eqn:Hnew.
  - destruct (constructor_draws_six_per_particle
                random_half (world page 800 600) "particleCanvas" 60 0%nat
                s w' tr eq_refl Hnew) as (_ & Hw & _).
    rewrite Hw. reflexivity.
  - unfold ParticleSystem.new in Hnew.
    change (deref (document (world page 800 600)) "particleCanvas")
      with (@Return loc 0%nat) in Hnew.
    discriminate Hnew.
Defined.

(** ** The tree creator *)

Lemma remove_first_filter (t : nat) (l : list nat) :
  NoDup l -> remove_first t l = filter (fun a => negb (Nat.eqb a t)) l.
Proof.
  induction l as [| a l IH]; intros Hnd; [reflexivity |].
  inversion_clear Hnd as [| ? ? Hnin Hnd']. simpl.
  destruct (Nat.eqb_spec a t) as [-> | Hne]; simpl.
  - symmetry. apply forallb_filter_id. apply forallb_forall.
    intros b Hb. apply negb_true_iff. apply Nat.eqb_neq.
    intros ->. contradiction.
  - rewrite (IH Hnd'). reflexivity.
Qed.

Lemma detach_ids (t : nat) (l : list TreeElement) :
  map tree_id (detach t l)
  = filter (fun a => negb (Nat.eqb a t)) (map tree_id l).
Proof.
  unfold detach. induction l as [| e l IH]; [reflexivity |].
  simpl. destruct (negb (Nat.eqb (tree_id e) t)); simpl; rewrite IH;
    reflexivity.
Qed.

Lemma detach_all (ts : list nat) :
  forall l : list TreeElement,
    (forall e, In e l -> In (tree_id e) ts) ->
    fold_left (fun l' tree => detach tree l') ts l = [].
Proof.
  induction ts as [| t ts IH]; intros l Hl.
  - destruct l as [| e l]; [reflexivity |].
    destruct (Hl e (or_introl eq_refl)).
  - simpl. apply IH. intros e He. unfold detach in He.
    apply filter_In in He. destruct He as [He Hne]. cbv beta in Hne.
    destruct (Hl e He) as [Heq | Hin]; [| exact Hin].
    rewrite Heq, Nat.eqb_refl in Hne. discriminate Hne.
Qed.

Lemma createTree_inv (random : Random) (w : World) (c : LoveTreeCreator.t)
      (g : Garden) :
  tree_inv (c, g, w) ->
  tree_inv (fst (LoveTreeCreator.createTree random w c g)).
Proof.
  unfold tree_inv, LoveTreeCreator.createTree,
    LoveTreeCreator.getRandomPosition. simpl.
  intros (Hmap & Hnd & Hlt & _ & Hmax). repeat split.
  - rewrite map_app, Hmap. reflexivity.
  - apply NoDup_app; [exact Hnd | repeat constructor; intros [] |].
    intros a Ha [Heq | []]. rewrite Forall_forall in Hlt.
    specialize (Hlt a Ha). lia.
  - apply Forall_app. split.
    + eapply Forall_impl; [| exact Hlt]. intros a Ha. simpl in Ha. lia.
    + repeat constructor.
  - exact Hmax.
Qed.

Lemma removeTree_inv (tree : nat) (w : World) (c : LoveTreeCreator.t)
      (g : Garden) :
  tree_inv (c, g, w) ->
  tree_inv (c, fst (LoveTreeCreator.removeTree tree g), w).
Proof.
  unfold tree_inv, LoveTreeCreator.removeTree. simpl. auto.
Qed.

Lemma finishRemove_inv (tree : nat) (w : World) (c : LoveTreeCreator.t)
      (g : Garden) :
  tree_inv (c, g, w) ->
  tree_inv (LoveTreeCreator.finishRemove tree c g, w).
Proof.
  unfold tree_inv, LoveTreeCreator.finishRemove. simpl.
  intros (Hmap & Hnd & Hlt & Hbtn & Hmax).
  rewrite (remove_first_filter tree _ Hnd), detach_ids, Hmap.
  repeat split.
  - apply NoDup_filter. exact Hnd.
  - rewrite Forall_forall in *. intros a Ha. apply filter_In in Ha.
    apply Hlt. tauto.
  - intros Hne.
    destruct (filter _ (LoveTreeCreator.activeTrees c)) as [| a l] eqn:Hf;
      [contradiction |].
    apply Hbtn. intros He. rewrite He in Hf. discriminate Hf.
  - exact Hmax.
Qed.

Lemma tree_step_inv (random : Random) (op : TreeOp) (st : TreeState) :
  tree_inv st -> tree_inv (tree_step random op st).
Proof.
  destruct st as [[c g] w]. intros Hinv.
  destruct op as [| | tm |]; unfold tree_step.
  - unfold LoveTreeCreator.handleClick.
    destruct (LoveTreeCreator.isGrowing c); [exact Hinv |].
    assert (Hg1 : tree_inv
                    (c,
                     fst (if (LoveTreeCreator.maxTrees c
                              <=? List.length (LoveTreeCreator.activeTrees c))%nat
                          then LoveTreeCreator.removeOldestTree c g
                          else (g, [])),
                     w)).
    { destruct (_ <=? _)%nat; [| exact Hinv].
      unfold LoveTreeCreator.removeOldestTree.
      destruct (LoveTreeCreator.activeTrees c) as [| oldest rest] eqn:Ha;
        [exact Hinv |].
      apply removeTree_inv. exact Hinv. }
    destruct (if (_ <=? _)%nat then _ else _) as [g1 timers1].
    simpl fst in Hg1.
    pose proof (createTree_inv random w c g1 Hg1) as Hc.
    destruct (LoveTreeCreator.createTree random w c g1)
      as [[[c2 g2] w2] timers2].
    exact Hc.
  - apply createTree_inv. exact Hinv.
  - destruct tm as [tree k | tree | tree i | tree | tree |];
      unfold LoveTreeCreator.fire; try exact Hinv.
    + exact (finishRemove_inv tree w c g Hinv).
    + unfold tree_inv in *. simpl.
      destruct Hinv as (Hmap & Hnd & Hlt & Hbtn & Hmax). repeat split; auto.
      intros Hne.
      destruct (LoveTreeCreator.activeTrees c); [contradiction |].
      apply Hbtn. discriminate.
  - unfold tree_inv in *. simpl.
    destruct Hinv as (Hmap & Hnd & Hlt & Hbtn & Hmax).
    rewrite detach_all.
    + repeat split; auto; try constructor; try contradiction.
    + intros e He. rewrite <- Hmap. apply in_map. exact He.
Qed.

(** X10.  Whatever clicks, calls of [createTree()] and [clearAllTrees()]
    and timers follow the constructor, [activeTrees] lists exactly the tree
    elements attached to the page, in the order they were appended and each
    once, and the button is highlighted whenever there is a tree. *)
Theorem tree_list_matches_page
        (random : Random) (d : Document) (id : string)
        (c : LoveTreeCreator.t) (active : bool) (next : nat) (w : World)
        (ops : list TreeOp) :
  LoveTreeCreator.new d id = Return c ->
  tree_inv (tree_run random ops (c, empty_garden active next, w)).
Proof.
  intros Hnew.
  assert (Hinit : tree_inv (c, empty_garden active next, w)).
  { unfold LoveTreeCreator.new, deref in Hnew.
    destruct (d id) as [b |]; [| discriminate Hnew].
    simpl in Hnew. injection Hnew as <-.
    unfold tree_inv. simpl. repeat split; auto; try constructor. }
  unfold tree_run. revert Hinit.
  generalize (c, empty_garden active next, w) as st.
  induction ops as [| op ops IH]; intros st Hst; simpl.
  - exact Hst.
  - apply IH. apply tree_step_inv. exact Hst.
Qed.

Lemma tree_list_matches_page_witness :
  tree_inv (tree_run random_half
                     [TreeClick; TreeFire ResetGrowing; TreeSpawn;
                      TreeFire (FinishRemove 0); TreeClear]
                     (LoveTreeCreator.mk 4%nat None false 0%nat 3%nat [],
                      empty_garden false 0%nat, world page 800 600)).
Proof.
  apply (tree_list_matches_page random_half page "treeBtn"
           (LoveTreeCreator.mk 4%nat None false 0%nat 3%nat []) false 0%nat
           (world page 800 600)).
  reflexivity.
Defined.

Lemma class_add_In (t : nat) (l : list nat) : In t (class_add t l).
Proof.
  unfold class_add. destruct (existsb (Nat.eqb t) l) eqn:He.
  - apply existsb_exists in He. destruct He as (a & Ha & Heq).
    apply Nat.eqb_eq in Heq. subst a. exact Ha.
  - apply in_or_app. right. left. reflexivity.
Qed.

(** X11.  A click on the tree button while a tree is growing does nothing.
    Any other click appends one new tree to [activeTrees] and to the page
    and removes none: at capacity the oldest tree is only given the class
    [grow-out] and a timer of 1.5 s for its removal, so that it is still
    listed after the click.  Four clicks two seconds apart thus lead to four
    listed trees, one more than [maxTrees]. *)
Theorem tree_click_adds_tree (random : Random) (w : World)
        (c : LoveTreeCreator.t) (g : Garden) :
  let r := LoveTreeCreator.handleClick random w c g in
  let c' := fst (fst (fst r)) in
  let g' := snd (fst (fst r)) in
  (LoveTreeCreator.isGrowing c = true -> r = (c, g, w, [])) /\
  (LoveTreeCreator.isGrowing c = false ->
   LoveTreeCreator.activeTrees c'
   = LoveTreeCreator.activeTrees c ++ [next_tree g] /\
   map tree_id (body_trees g') = map tree_id (body_trees g) ++ [next_tree g] /\
   LoveTreeCreator.isGrowing c' = true /\
   In (2000%N, ResetGrowing) (snd r) /\
   In (15000%N, RemoveTree (next_tree g)) (snd r) /\
   forall (oldest : nat) (rest : list nat),
     LoveTreeCreator.activeTrees c = oldest :: rest ->
     (LoveTreeCreator.maxTrees c
      <= List.length (LoveTreeCreator.activeTrees c))%nat ->
     In oldest (LoveTreeCreator.activeTrees c') /\
     In oldest (growing_out g') /\
     In (1500%N, FinishRemove oldest) (snd r)) /\
  List.length
    (LoveTreeCreator.activeTrees
       (fst (fst (tree_run random four_clicks tree_state0))))
  = 4%nat.
Proof.
  cbv zeta. split; [| split].
  - intros Hg. unfold LoveTreeCreator.handleClick. rewrite Hg. reflexivity.
  - intros Hg. unfold LoveTreeCreator.handleClick. rewrite Hg.
    assert (Htimers : forall tree timers1,
               In (2000%N, ResetGrowing)
                  (timers1
                   ++ map (fun layerIndex =>
                             ((N.of_nat layerIndex * 150)%N,
                              RowAnimate tree layerIndex))
                          (seq 0 (List.length LoveTreeCreator.layers))
                   ++ [(1500%N, AddSparkles tree);
                       (15000%N, RemoveTree tree);
                       (2000%N, ResetGrowing)]) /\
               In (15000%N, RemoveTree tree)
                  (timers1
                   ++ map (fun layerIndex =>
                             ((N.of_nat layerIndex * 150)%N,
                              RowAnimate tree layerIndex))
                          (seq 0 (List.length LoveTreeCreator.layers))
                   ++ [(1500%N, AddSparkles tree);
                       (15000%N, RemoveTree tree);
                       (2000%N, ResetGrowing)])).
    { intros tree timers1.
      split; apply in_or_app; right; apply in_or_app; right; simpl; auto. }
    destruct (LoveTreeCreator.maxTrees c
              <=? List.length (LoveTreeCreator.activeTrees c))%nat eqn:Hcap.
    + unfold LoveTreeCreator.removeOldestTree.
      destruct (LoveTreeCreator.activeTrees c) as [| oldest rest] eqn:Ha.
      * unfold LoveTreeCreator.createTree, LoveTreeCreator.getRandomPosition.
        cbn [fst snd LoveTreeCreator.activeTrees body_trees
             LoveTreeCreator.isGrowing].
        rewrite map_app, Ha.
        split; [reflexivity |]. split; [reflexivity |].
        split; [reflexivity |].
        split; [apply (Htimers (next_tree g) []) |].
        split; [apply (Htimers (next_tree g) []) |].
        intros oldest rest Hd. discriminate Hd.
      * unfold LoveTreeCreator.createTree, LoveTreeCreator.getRandomPosition,
          LoveTreeCreator.removeTree.
        cbn [fst snd LoveTreeCreator.activeTrees body_trees
             LoveTreeCreator.isGrowing growing_out next_tree].
        rewrite map_app, Ha.
        split; [reflexivity |]. split; [reflexivity |].
        split; [reflexivity |].
        split; [apply (Htimers (next_tree g) [(1500%N, FinishRemove oldest)]) |].
        split; [apply (Htimers (next_tree g) [(1500%N, FinishRemove oldest)]) |].
        intros oldest' rest' Hd _. injection Hd as <- <-.
        split; [left; reflexivity |].
        split; [apply class_add_In | left; reflexivity].
    + unfold LoveTreeCreator.createTree, LoveTreeCreator.getRandomPosition.
      cbn [fst snd LoveTreeCreator.activeTrees body_trees
           LoveTreeCreator.isGrowing].
      rewrite map_app.
      split; [reflexivity |]. split; [reflexivity |].
      split; [reflexivity |].
      split; [apply (Htimers (next_tree g) []) |].
      split; [apply (Htimers (next_tree g) []) |].
      intros oldest rest Hd Hle. apply Nat.leb_gt in Hcap. lia.
  - reflexivity.
Qed.

(** X12.  When the removal timer of a tree fires, that tree and no other
    leaves [activeTrees] and the page, the others keep their order, and the
    highlight of the button goes with the last tree; a second firing for the
    same tree, as happens to a tree removed for being the oldest when its own
    fifteen seconds are over, changes nothing. *)
Theorem tree_removal_exact (tree : nat) (c : LoveTreeCreator.t) (g : Garden) :
  NoDup (LoveTreeCreator.activeTrees c) ->
  let r := LoveTreeCreator.finishRemove tree c g in
  LoveTreeCreator.activeTrees (fst r)
  = filter (fun a => negb (Nat.eqb a tree)) (LoveTreeCreator.activeTrees c) /\
  map tree_id (body_trees (snd r))
  = filter (fun a => negb (Nat.eqb a tree)) (map tree_id (body_trees g)) /\
  (LoveTreeCreator.activeTrees (fst r) = [] ->
   tree_button_active (snd r) = false) /\
  (~ In tree (LoveTreeCreator.activeTrees c) ->
   LoveTreeCreator.activeTrees (fst r) = LoveTreeCreator.activeTrees c) /\
  LoveTreeCreator.finishRemove tree (fst r) (snd r) = r.
Proof.
  intros Hnd. cbv zeta. unfold LoveTreeCreator.finishRemove. simpl.
  rewrite (remove_first_filter tree _ Hnd), detach_ids.
  set (kept := filter (fun a => negb (Nat.eqb a tree))
                      (LoveTreeCreator.activeTrees c)).
  assert (Hkept : remove_first tree kept = kept).
  { rewrite remove_first_filter by (apply NoDup_filter; exact Hnd).
    subst kept. apply forallb_filter_id. apply forallb_forall.
    intros a Ha. apply filter_In in Ha. tauto. }
  repeat split.
  - intros He. rewrite He. reflexivity.
  - intros Hnin. subst kept. apply forallb_filter_id. apply forallb_forall.
    intros a Ha. apply negb_true_iff. apply Nat.eqb_neq.
    intros ->. contradiction.
  - rewrite Hkept. unfold LoveTreeCreator.set_trees. simpl.
    f_equal. f_equal.
    + unfold detach. apply forallb_filter_id. apply forallb_forall.
      intros e He. apply filter_In in He. tauto.
    + destruct kept; reflexivity.
Qed.

Lemma tree_removal_exact_witness :
  LoveTreeCreator.activeTrees
    (fst (LoveTreeCreator.finishRemove
            1 (LoveTreeCreator.mk 4%nat None false 0%nat 3%nat
                                  [0; 1; 2]%nat)
            (mkGarden [mkTree 0 150; mkTree 1 300; mkTree 2 450] true [] 3)))
  = [0; 2]%nat.
Proof.
  apply (tree_removal_exact
           1 (LoveTreeCreator.mk 4%nat None false 0%nat 3%nat [0; 1; 2]%nat)
           (mkGarden [mkTree 0 150; mkTree 1 300; mkTree 2 450] true [] 3)).
  simpl. repeat constructor; simpl; intuition discriminate.
Defined.

(** X13.  [getRandomPosition()] makes one call of [Math.random()].  On a
    viewport at least 200 wide the position keeps a margin of 100 on both
    sides; on a narrower one the width left between the margins is negative
    and the position lies between [width - 100] and 100, both included: at
    or beyond the right margin. *)
Theorem tree_position_range (random : Random) (w : World) :
  in_unit_interval random ->
  let position := fst (LoveTreeCreator.getRandomPosition random w) in
  calls (snd (LoveTreeCreator.getRandomPosition random w)) = S (calls w) /\
  ((200 <= innerWidth w)%N ->
   100 <= position <= num (innerWidth w) - 100) /\
  ((innerWidth w < 200)%N ->
   num (innerWidth w) - 100 <= position <= 100).
Proof.
  intros Hr. cbv zeta. unfold LoveTreeCreator.getRandomPosition. simpl.
  pose proof (Hr (calls w)) as [H0 H1].
  split; [lia |]. split.
  - intros Hw. assert (Hn : 200 <= num (innerWidth w)).
    { unfold num. apply IZR_le. lia. }
    split; nra.
  - intros Hw. assert (Hn : num (innerWidth w) < 200).
    { unfold num. apply IZR_lt. lia. }
    split; nra.
Qed.

Lemma tree_position_range_witness :
  100 <= fst (LoveTreeCreator.getRandomPosition random_half
                                                (world page 800 600))
      <= 700.
Proof.
  assert (Hr : in_unit_interval random_half).
  { intros k. unfold random_half. lra. }
  destruct (tree_position_range random_half (world page 800 600) Hr)
    as (_ & Hwide & _).
  assert (Hw : (200 <= innerWidth (world page 800 600))%N)
    by (simpl; lia).
  specialize (Hwide Hw). simpl in Hwide. simpl.
  unfold num in *. simpl in *. lra.
Defined.

(** ** Random picks, hearts and fireworks *)

Lemma random_pick_defined {A : Type} (r : R) (arr : list A) :
  0 <= r < 1 -> arr <> [] ->
  exists a : A, random_pick r arr = Some a /\ In a arr.
Proof.
  intros [Hr0 Hr1] Hne. unfold random_pick.
  set (n := List.length arr).
  assert (Hn : 0 < INR n).
  { apply lt_0_INR. subst n. destruct arr; [contradiction | simpl; lia]. }
  pose proof (Zfloor_bound (r * INR n)) as [Hlo Hhi].
  set (i := Zfloor (r * INR n)) in *.
  assert (Hi0 : (0 <= i)%Z).
  { assert (Hlt : (-1 < i)%Z); [| lia].
    apply lt_IZR. nra. }
  assert (Hin : (i < Z.of_nat n)%Z).
  { apply lt_IZR. rewrite <- INR_IZR_INZ. nra. }
  destruct (Z.ltb_spec i 0) as [Hneg | _]; [lia |].
  destruct (nth_error arr (Z.to_nat i)) as [a |] eqn:Hnth.
  - exists a. split; [reflexivity |]. eapply nth_error_In. exact Hnth.
  - apply nth_error_None in Hnth. fold n in Hnth. lia.
Qed.

(** X14.  Every floating heart shows one of the five symbols (the random
    index never leaves the array), has a font size in [20, 40], a [left] in
    [0, 100) and an animation of between four and seven seconds, no longer
    than the seven seconds after which it is removed; making it takes four
    calls of [Math.random()]. *)
Theorem heart_ranges (random : Random) (w : World) :
  in_unit_interval random ->
  let h := fst (FloatingHeartsEffect.createHeart random w) in
  (exists s : string,
      FloatingHeartsEffect.symbol h = Some s /\
      In s FloatingHeartsEffect.hearts) /\
  20 <= FloatingHeartsEffect.fontSize h <= 40 /\
  0 <= FloatingHeartsEffect.left h < 100 /\
  4 <= FloatingHeartsEffect.duration h <= 7 /\
  calls (snd (FloatingHeartsEffect.createHeart random w)) = (calls w + 4)%nat.
Proof.
  intros Hr. cbv zeta. unfold FloatingHeartsEffect.createHeart. simpl.
  pose proof (Hr (calls w)) as H0.
  pose proof (Hr (calls w + 1)%nat) as H1.
  pose proof (Hr (calls w + 2)%nat) as H2.
  pose proof (Hr (calls w + 3)%nat) as H3.
  split; [| repeat split; lra].
  refine (random_pick_defined _ FloatingHeartsEffect.hearts H0 _).
  discriminate.
Qed.

Lemma heart_ranges_witness :
  exists s : string,
    FloatingHeartsEffect.symbol
      (fst (FloatingHeartsEffect.createHeart random_half (world page 800 600)))
    = Some s /\
    In s FloatingHeartsEffect.hearts.
Proof.
  assert (Hr : in_unit_interval random_half).
  { intros k. unfold random_half. lra. }
  exact (proj1 (heart_ranges random_half (world page 800 600) Hr)).
Defined.

(** X15.  A rocket starts on the bottom edge, at an abscissa within the
    viewport, ends at most 100 to the left or to the right of where it
    started, and explodes between 100 and [100 + 0.4 height] from the top:
    above its start when the viewport is at least 167 high, and not above
    it when the viewport is at most 100 high. *)
Theorem rocket_ranges (random : Random) (w : World) :
  in_unit_interval random ->
  let r := fst (FireworksController.createFirework random w) in
  0 <= FireworksController.startX r <= num (innerWidth w) /\
  FireworksController.startY r = num (innerHeight w) /\
  -100 <= FireworksController.endX r - FireworksController.startX r <= 100 /\
  100 <= FireworksController.endY r <= 100 + 0.4 * num (innerHeight w) /\
  ((167 <= innerHeight w)%N ->
   FireworksController.endY r < FireworksController.startY r) /\
  ((innerHeight w <= 100)%N ->
   FireworksController.startY r <= FireworksController.endY r).
Proof.
  intros Hr. cbv zeta. unfold FireworksController.createFirework. simpl.
  pose proof (Hr (calls w)) as H0.
  pose proof (Hr (calls w + 1)%nat) as H1.
  pose proof (Hr (calls w + 2)%nat) as H2.
  pose proof (num_nonneg (innerWidth w)) as Hw.
  pose proof (num_nonneg (innerHeight w)) as Hh.
  split; [nra |]. split; [reflexivity |]. split; [lra |]. split; [nra |].
  split.
  - intros Hbig. assert (Hn : 167 <= num (innerHeight w)).
    { unfold num. apply IZR_le. lia. }
    nra.
  - intros Hsmall. assert (Hn : num (innerHeight w) <= 100).
    { unfold num. apply IZR_le. lia. }
    nra.
Qed.

Lemma rocket_ranges_witness :
  FireworksController.endY
    (fst (FireworksController.createFirework random_half (world page 800 600)))
  < 600.
Proof.
  assert (Hr : in_unit_interval random_half).
  { intros k. unfold random_half. lra. }
  destruct (rocket_ranges random_half (world page 800 600) Hr)
    as (_ & Hy & _ & _ & Hup & _).
  assert (Hh : (167 <= innerHeight (world page 800 600))%N)
    by (simpl; lia).
  specialize (Hup Hh). rewrite Hy in Hup.
  replace (num (innerHeight (world page 800 600))) with 600 in Hup
    by (unfold num; simpl; lra).
  exact Hup.
Defined.

(** X16.  While a rocket flies its trail is the point of the segment from
    the start to the end point at the fraction [t] of the way, the same
    fraction for both coordinates: [t] is [elapsed / 800] during the first
    800 ms and 1 from then on, however late the frame comes; the trail asks
    for another frame exactly as long as fewer than 800 ms have passed. *)
Theorem trail_on_segment (r : FireworksController.Rocket) (elapsed : R) :
  0 <= elapsed ->
  let x := fst (fst (FireworksController.trail r elapsed)) in
  let y := snd (fst (FireworksController.trail r elapsed)) in
  let more := snd (FireworksController.trail r elapsed) in
  (exists t : R,
      0 <= t <= 1 /\
      (elapsed <= 800 -> t = elapsed / 800) /\
      (800 <= elapsed -> t = 1) /\
      x = FireworksController.startX r
          + (FireworksController.endX r - FireworksController.startX r) * t /\
      y = FireworksController.startY r
          + (FireworksController.endY r - FireworksController.startY r) * t) /\
  (more = true <-> elapsed < 800).
Proof.
  intros He. cbv zeta. unfold FireworksController.trail. simpl.
  set (p := Rmin (elapsed / 800) 1).
  assert (Hp : 0 <= p <= 1).
  { subst p. unfold Rmin. destruct (Rle_dec (elapsed / 800) 1); lra. }
  assert (Hlt : p < 1 <-> elapsed < 800).
  { subst p. unfold Rmin. destruct (Rle_dec (elapsed / 800) 1); lra. }
  split.
  - exists p. split; [exact Hp |]. split; [| split; [| split; reflexivity]].
    + intros Hearly. subst p. unfold Rmin.
      destruct (Rle_dec (elapsed / 800) 1); lra.
    + intros Hlate. subst p. unfold Rmin.
      destruct (Rle_dec (elapsed / 800) 1); lra.
  - destruct (Rlt_dec p 1) as [Hl | Hl].
    + split; [intros _; tauto | reflexivity].
    + split; [discriminate | intros Hx; tauto].
Qed.

Lemma trail_on_segment_witness :
  FireworksController.trail (FireworksController.mkRocket 0 0 10 10) 400
  = (5, 5, true).
Proof.
  assert (He : 0 <= 400) by lra.
  destruct (trail_on_segment (FireworksController.mkRocket 0 0 10 10) 400 He)
    as ((t & _ & Ht & _ & Hx & Hy) & Hmore).
  specialize (Ht ltac:(lra)).
  destruct (FireworksController.trail
              (FireworksController.mkRocket 0 0 10 10) 400)
    as [[x y] more].
  simpl in *. subst t.
  assert (Hx5 : x = 5) by lra. assert (Hy5 : y = 5) by lra.
  clear Hx Hy. subst x y. f_equal.
  destruct more; [reflexivity |].
  destruct Hmore as [_ Hm]. apply Hm. lra.
Defined.

Lemma spark_distance (i : nat) (r1 r2 : R) :
  0 <= r1 ->
  let s := FireworksController.spark i r1 r2 in
  sqrt (FireworksController.tx s * FireworksController.tx s
        + FireworksController.ty s * FireworksController.ty s)
  = 100 + r1 * 100.
Proof.
  intros Hr. cbv zeta. unfold FireworksController.spark. simpl.
  set (a := PI * 2 * INR i / 40). set (v := 100 + r1 * 100).
  pose proof (sin2_cos2 a) as Hsc. unfold Rsqr in Hsc.
  replace (cos a * v * (cos a * v) + sin a * v * (sin a * v))
    with (v * v * (sin a * sin a + cos a * cos a)) by ring.
  rewrite Hsc, Rmult_1_r. apply sqrt_square. subst v. nra.
Qed.

(** X17.  An explosion has a colour of the palette (the random index never
    leaves the array) and forty particles; the particle number [i] leaves
    at the angle [2 pi i / 40] with a velocity between 100 and 200, and is
    animated for between 1.5 and 2 seconds, less than the three seconds
    after which the explosion is removed; the explosion makes 81 calls of
    [Math.random()]. *)
Theorem explosion_ranges (random : Random) (w : World) :
  in_unit_interval random ->
  let r := FireworksController.explode random w in
  (exists c : string,
      fst (fst r) = Some c /\ In c FireworksController.colors) /\
  List.length (snd (fst r)) = 40%nat /\
  (forall i : nat,
      (i < 40)%nat ->
      exists (s : FireworksController.Spark) (velocity : R),
        nth_error (snd (fst r)) i = Some s /\
        100 <= velocity <= 200 /\
        FireworksController.tx s = cos (PI * 2 * INR i / 40) * velocity /\
        FireworksController.ty s = sin (PI * 2 * INR i / 40) * velocity /\
        1.5 <= FireworksController.seconds s <= 2) /\
  calls (snd r) = (calls w + 81)%nat.
Proof.
  intros Hr. cbv zeta. unfold FireworksController.explode.
  cbn [fst snd]. split; [| split; [| split]].
  - apply random_pick_defined; [apply Hr | discriminate].
  - rewrite length_map, length_seq. reflexivity.
  - intros i Hi.
    pose proof (Hr (calls w + 1 + 2 * i)%nat) as H1.
    pose proof (Hr (calls w + 2 + 2 * i)%nat) as H2.
    exists (FireworksController.spark i (random (calls w + 1 + 2 * i)%nat)
                                      (random (calls w + 2 + 2 * i)%nat)).
    exists (100 + random (calls w + 1 + 2 * i)%nat * 100).
    split.
    + rewrite nth_error_map.
      rewrite (nth_error_nth' (seq 0 40) 0%nat)
        by (rewrite length_seq; exact Hi).
      rewrite seq_nth by exact Hi. reflexivity.
    + unfold FireworksController.spark.
      cbn [FireworksController.tx FireworksController.ty
           FireworksController.seconds].
      repeat split; lra.
  - reflexivity.
Qed.

Lemma explosion_ranges_witness :
  exists (s : FireworksController.Spark) (velocity : R),
    nth_error
      (snd (fst (FireworksController.explode random_half (world page 800 600))))
      10
    = Some s /\
    100 <= velocity <= 200 /\
    FireworksController.tx s = cos (PI * 2 * INR 10 / 40) * velocity /\
    FireworksController.ty s = sin (PI * 2 * INR 10 / 40) * velocity /\
    1.5 <= FireworksController.seconds s <= 2.
Proof.
  assert (Hr : in_unit_interval random_half).
  { intros k. unfold random_half. lra. }
  destruct (explosion_ranges random_half (world page 800 600) Hr)
    as (_ & _ & Hsparks & _).
  apply (Hsparks 10%nat). lia.
Defined.

(** ** What a frame draws *)

Lemma created_in_range (random : Random) (w : World) (cv : loc) (i : nat) :
  in_unit_interval random ->
  attributes_in_range (attributes (created random w cv i)).
Proof.
  intros Hr. unfold created, Particle.new, Particle.reset, attributes,
               attributes_in_range. simpl.
  set (k := (calls w + (i + (i + (i + (i + (i + (i + 0)))))))%nat).
  pose proof (Hr (k + 2)%nat). pose proof (Hr (k + 3)%nat).
  pose proof (Hr (k + 4)%nat). pose proof (Hr (k + 5)%nat).
  lra.
Qed.

Lemma attributes_transfer (P : R * R * R * R -> Prop) (l l' : list Particle.t) :
  map attributes l' = map attributes l ->
  Forall (fun p => P (attributes p)) l ->
  Forall (fun p => P (attributes p)) l'.
Proof.
  intros Hmap HF.
  apply (Forall_map attributes P l'). rewrite Hmap.
  apply (Forall_map attributes P l). exact HF.
Qed.

Lemma animate_well_drawn (s : ParticleSystem.t) (w : World) :
  aliased s ->
  Forall (fun p => attributes_in_range (attributes p))
         (ParticleSystem.particles s) ->
  Forall (well_drawn (heap w (ParticleSystem.canvas s)))
         (snd (ParticleSystem.animate s w)).
Proof.
  intros Hal Hattr.
  pose proof (animate_within s w Hal) as Hin.
  rewrite animate_particles in Hin.
  assert (Hattr' : Forall (fun p => attributes_in_range (attributes p))
                          (map (Particle.update (heap w))
                               (ParticleSystem.particles s))).
  { apply Forall_map. eapply Forall_impl; [| exact Hattr].
    intros p Hp. rewrite update_attributes. exact Hp. }
  unfold ParticleSystem.animate. cbn [snd].
  set (ps' := map (Particle.update (heap w)) (ParticleSystem.particles s)) in *.
  set (c := heap w (ParticleSystem.canvas s)) in *.
  constructor; [simpl; auto |].
  apply Forall_app. split.
  - apply Forall_map. rewrite Forall_forall in *. intros p Hp.
    specialize (Hin p Hp). specialize (Hattr' p Hp).
    unfold attributes, attributes_in_range in Hattr'.
    unfold within in Hin. unfold draw, well_drawn. tauto.
  - rewrite Forall_forall. intros cmd Hcmd.
    pose proof (pairs_and_lines ps') as [_ Hlines].
    destruct (Forall2_In_right _ _ _ _ Hlines Hcmd)
      as (ij & Hij & a & b & Ha & Hb & ->).
    apply connections_close in Hij.
    destruct Hij as (_ & a' & b' & Ha' & Hb' & Hd).
    rewrite Ha in Ha'. rewrite Hb in Hb'.
    injection Ha' as <-. injection Hb' as <-.
    apply nth_error_In in Ha. apply nth_error_In in Hb.
    rewrite Forall_forall in Hin.
    pose proof (Hin a Ha) as Hia. pose proof (Hin b Hb) as Hib.
    unfold within in Hia, Hib. unfold well_drawn.
    pose proof (euclidean_nonneg a b) as H0.
    repeat split; try tauto; lra.
Qed.

(** X18.  In a field built by the constructor every drawing command of
    every frame, the first one included, is as it should be, whatever frames
    and resize events came before: the canvas is cleared whole, each disc
    has a radius in [1, 4) and an opacity in [0.2, 0.7], each line an
    opacity in (0, 0.2], and all discs and line ends lie on the canvas. *)
Theorem frames_well_drawn
        (random : Random) (w : World) (id : string) (n : nat)
        (s : ParticleSystem.t) (w' : World) (tr : list DrawCmd) :
  in_unit_interval random ->
  ParticleSystem.new random w id n = Return (s, w', tr) ->
  Forall (well_drawn (field_canvas (s, w'))) tr /\
  forall evs : list Event,
    let f := final evs (s, w') in
    Forall (well_drawn (field_canvas f)) (snd (step Frame f)).
Proof.
  intros Hr Hnew.
  pose proof Hnew as Hspec. apply new_spec in Hspec.
  destruct Hspec as (Hdoc & Hal & _).
  unfold ParticleSystem.new, deref in Hnew. rewrite Hdoc in Hnew.
  unfold bind, ParticleSystem.init in Hnew.
  cbn [ParticleSystem.particleCount ParticleSystem.canvas
       ParticleSystem.particles] in Hnew.
  rewrite createParticles_created in Hnew. cbn [app] in Hnew.
  set (cv := ParticleSystem.canvas s) in *.
  set (w1 := ParticleSystem.resizeCanvas (ParticleSystem.mk cv [] n) w) in *.
  set (s0 := ParticleSystem.mk cv (map (created random w1 cv) (seq 0 n)) n)
    in *.
  assert (Hattr0 : Forall (fun p => attributes_in_range (attributes p))
                          (ParticleSystem.particles s0)).
  { subst s0. cbn [ParticleSystem.particles]. apply Forall_map.
    apply Forall_forall. intros i _. apply created_in_range. exact Hr. }
  assert (Hal0 : aliased s0).
  { subst s0. unfold aliased. cbn [ParticleSystem.particles
                                   ParticleSystem.canvas].
    apply Forall_map. apply Forall_forall. intros i _. reflexivity. }
  pose proof (animate_well_drawn s0 (set_calls w1 (calls w1 + 6 * n)) Hal0
                                 Hattr0) as Hfirst.
  assert (Hattr : Forall (fun p => attributes_in_range (attributes p))
                         (ParticleSystem.particles s)).
  { destruct (ParticleSystem.animate s0 (set_calls w1 (calls w1 + 6 * n)))
      as [s1 tr1] eqn:Han.
    injection Hnew as <- _ _.
    apply (f_equal fst) in Han. cbn [fst] in Han. rewrite <- Han.
    rewrite animate_particles. apply Forall_map.
    eapply Forall_impl; [| exact Hattr0].
    intros p Hp. rewrite update_attributes. exact Hp. }
  split.
  - destruct (ParticleSystem.animate s0 (set_calls w1 (calls w1 + 6 * n)))
      as [s1 tr1] eqn:Han.
    injection Hnew as _ <- <-. exact Hfirst.
  - intros evs. cbv zeta.
    pose proof (final_preserved evs (s, w')) as (_ & Hal' & _ & Hattrs).
    specialize (Hal' Hal).
    pose proof (attributes_transfer attributes_in_range _ _ Hattrs Hattr)
      as Hattr'.
    destruct (final evs (s, w')) as [s2 w2].
    unfold field_canvas, field_particles in *. cbn [fst snd] in *.
    unfold step. 
    pose proof (animate_well_drawn s2 w2 Hal' Hattr') as Hd.
    destruct (ParticleSystem.animate s2 w2) as [s3 tr3]. exact Hd.
Qed.

Lemma frames_well_drawn_witness :
  match ParticleSystem.new random_half (world page 800 600)
                           "particleCanvas" 60 with
  | Return (s, w', tr) => Forall (well_drawn (field_canvas (s, w'))) tr
  | Throw _ => False
  end.
Proof.
  assert (Hr : in_unit_interval random_half).
  { intros k. unfold random_half. lra. }
  destruct (ParticleSystem.new random_half (world page 800 600)
                               "particleCanvas" 60)
    as [[[s w'] tr] | e] eqn:Hnew.
  - exact (proj1 (frames_well_drawn random_half (world page 800 600)
                    "particleCanvas" 60 s w' tr Hr Hnew)).
  - unfold ParticleSystem.new in Hnew.
    change (deref (document (world page 800 600)) "particleCanvas")
      with (@Return loc 0%nat) in Hnew.
    discriminate Hnew.
Defined.

(** ** The image carousels *)

Lemma images_two (cat : string) (images : list string) :
  ImageCarouselController.images_of cat = Some images ->
  List.length images = 2%nat.
Proof.
  unfold ImageCarouselController.images_of,
    ImageCarouselController.imageDatabase. cbn -[String.eqb].
  destruct (String.eqb "cake" cat);
    [intros Hi; injection Hi as <-; reflexivity |].
  destruct (String.eqb "chocolate" cat);
    [intros Hi; injection Hi as <-; reflexivity |].
  destruct (String.eqb "love" cat);
    [intros Hi; injection Hi as <-; reflexivity |].
  discriminate.
Qed.

Lemma has_category_spec (carousels : list (option string)) (cat : string)
      (i : nat) :
  has_category carousels cat i = true <-> nth_error carousels i = Some (Some cat).
Proof.
  unfold has_category.
  destruct (nth_error carousels i) as [[cat' |] |].
  - rewrite String.eqb_eq. split; congruence.
  - split; discriminate.
  - split; discriminate.
Qed.

Lemma init_one_spec (i : nat) (category : option string) (cat : string)
      (images : list string) (c : ImageCarouselController.t) :
  ImageCarouselController.images_of cat = Some images ->
  let c1 := ImageCarouselController.init_one i category c in
  (category = Some cat ->
   ImageCarouselController.currentIndices c1 cat = Some 0%nat /\
   ImageCarouselController.requested c1 i = nth_error images 0) /\
  (ImageCarouselController.currentIndices c cat = Some 0%nat ->
   ImageCarouselController.currentIndices c1 cat = Some 0%nat) /\
  (forall j, j <> i ->
             ImageCarouselController.requested c1 j
             = ImageCarouselController.requested c j).
Proof.
  intros Himg. cbv zeta. unfold ImageCarouselController.init_one.
  split; [| split].
  - intros ->. rewrite Himg. simpl.
    rewrite String.eqb_refl, Nat.eqb_refl. auto.
  - intros Hc. destruct category as [cat' |]; [| exact Hc].
    destruct (ImageCarouselController.images_of cat'); [| exact Hc].
    simpl. destruct (String.eqb cat cat'); [reflexivity | exact Hc].
  - intros j Hj. destruct category as [cat' |]; [| reflexivity].
    destruct (ImageCarouselController.images_of cat'); [| reflexivity].
    simpl. apply Nat.eqb_neq in Hj. rewrite Hj. reflexivity.
Qed.

Lemma init_from_spec (cat : string) (images : list string)
      (carousels : list (option string)) :
  ImageCarouselController.images_of cat = Some images ->
  forall (i0 : nat) (c : ImageCarouselController.t),
    let c' := ImageCarouselController.init_from i0 carousels c in
    (forall j, nth_error carousels j = Some (Some cat) ->
               ImageCarouselController.currentIndices c' cat = Some 0%nat /\
               ImageCarouselController.requested c' (i0 + j)
               = nth_error images 0) /\
    (ImageCarouselController.currentIndices c cat = Some 0%nat ->
     ImageCarouselController.currentIndices c' cat = Some 0%nat) /\
    (forall j, (j < i0)%nat ->
               ImageCarouselController.requested c' j
               = ImageCarouselController.requested c j).
Proof.
  intros Himg. induction carousels as [| x rest IH]; intros i0 c; cbv zeta.
  - simpl. split; [| split]; auto.
    intros j Hj. destruct j; discriminate Hj.
  - simpl ImageCarouselController.init_from.
    destruct (init_one_spec i0 x cat images c Himg) as (H1 & H2 & H3).
    destruct (IH (S i0) (ImageCarouselController.init_one i0 x c))
      as (I1 & I2 & I3).
    split; [| split].
    + intros [| j] Hj.
      * simpl in Hj. injection Hj as ->.
        destruct (H1 eq_refl) as [Hidx Hreq]. split.
        -- apply I2. exact Hidx.
        -- rewrite Nat.add_0_r, I3 by lia. exact Hreq.
      * simpl in Hj. destruct (I1 j Hj) as [Hidx Hreq]. split.
        -- exact Hidx.
        -- rewrite Nat.add_succ_r. exact Hreq.
    + intros Hc. apply I2. apply H2. exact Hc.
    + intros j Hj. rewrite I3 by lia. apply H3. lia.
Qed.

Lemma rotate_spec (carousels : list (option string)) (cat : string)
      (images : list string) (i count : nat) (c : ImageCarouselController.t) :
  ImageCarouselController.images_of cat = Some images ->
  ImageCarouselController.currentIndices c cat
  = Some (count mod List.length images)%nat ->
  (forall j, has_category carousels cat j = true ->
             exists img, ImageCarouselController.requested c j = Some img /\
                         In img images) ->
  let c' := ImageCarouselController.rotate carousels i c in
  let count' := if has_category carousels cat i then S count else count in
  ImageCarouselController.currentIndices c' cat
  = Some (count' mod List.length images)%nat /\
  (has_category carousels cat i = true ->
   ImageCarouselController.requested c' i
   = nth_error images (count' mod List.length images)) /\
  (forall j, has_category carousels cat j = true ->
             exists img, ImageCarouselController.requested c' j = Some img /\
                         In img images).
Proof.
  intros Himg Hidx Hreq. cbv zeta.
  pose proof (images_two cat images Himg) as Hlen.
  unfold ImageCarouselController.rotate.
  destruct (has_category carousels cat i) eqn:Hcat.
  - apply has_category_spec in Hcat. rewrite Hcat, Himg, Hidx.
    assert (Hk : ((count mod List.length images + 1) mod List.length images
                  = S count mod List.length images)%nat).
    { rewrite Nat.Div0.add_mod_idemp_l. f_equal. lia. }
    rewrite Hk. simpl ImageCarouselController.currentIndices.
    simpl ImageCarouselController.requested.
    rewrite String.eqb_refl, Nat.eqb_refl.
    split; [reflexivity |]. split; [reflexivity |].
    intros j Hj. destruct (Nat.eqb_spec j i) as [-> | Hne].
    + assert (Hlt : (S count mod List.length images < List.length images)%nat)
        by (apply Nat.mod_upper_bound; lia).
      destruct (nth_error images (S count mod List.length images)) as [img |]
        eqn:Hnth.
      * exists img. split; [reflexivity |]. eapply nth_error_In. exact Hnth.
      * apply nth_error_None in Hnth. lia.
    + apply Hreq. exact Hj.
  - split; [| split; [discriminate |]].
    + destruct (nth_error carousels i) as [[cat' |] |] eqn:Hi; try exact Hidx.
      destruct (ImageCarouselController.images_of cat'); [| exact Hidx].
      destruct (ImageCarouselController.currentIndices c cat');
        [| exact Hidx].
      simpl. unfold has_category in Hcat. rewrite Hi in Hcat.
      rewrite String.eqb_sym, Hcat. exact Hidx.
    + intros j Hj.
      destruct (nth_error carousels i) as [[cat' |] |] eqn:Hi;
        try (apply Hreq; exact Hj).
      destruct (ImageCarouselController.images_of cat');
        [| apply Hreq; exact Hj].
      destruct (ImageCarouselController.currentIndices c cat');
        [| apply Hreq; exact Hj].
      simpl. destruct (Nat.eqb_spec j i) as [-> | Hne];
        [| apply Hreq; exact Hj].
      rewrite Hj in Hcat. discriminate Hcat.
Qed.

Lemma rotate_step (carousels : list (option string)) (cat : string)
      (images : list string) (i k : nat) (c : ImageCarouselController.t) :
  nth_error carousels i = Some (Some cat) ->
  ImageCarouselController.images_of cat = Some images ->
  ImageCarouselController.currentIndices c cat = Some k ->
  ImageCarouselController.rotate carousels i c
  = ImageCarouselController.set_requested
      (ImageCarouselController.set_index
         c cat ((k + 1) mod List.length images)%nat)
      i (nth_error images ((k + 1) mod List.length images)%nat).
Proof.
  intros Hi Himg Hidx. unfold ImageCarouselController.rotate.
  rewrite Hi, Himg, Hidx. reflexivity.
Qed.

(** X19.  The index of a category is shared by all the carousels of that
    category: it counts, modulo the number of its images, the rotations of
    any of them; every such carousel always asks for an image of its
    category.  Two carousels of one category, rotating in turn, therefore
    keep asking for the same image each: the first for the second image,
    the second for the first. *)
Theorem carousel_shared_index (carousels : list (option string))
        (ticks : list nat) (cat : string) (images : list string) :
  ImageCarouselController.images_of cat = Some images ->
  (exists i, has_category carousels cat i = true) ->
  let c := rotations carousels ticks in
  ImageCarouselController.currentIndices c cat
  = Some (List.length (filter (has_category carousels cat) ticks)
          mod List.length images)%nat /\
  (forall i, has_category carousels cat i = true ->
             exists img, ImageCarouselController.requested c i = Some img /\
                         In img images) /\
  forall n : nat,
    let c2 := rotations [Some cat; Some cat] (alternate (S n)) in
    ImageCarouselController.requested c2 0 = nth_error images 1 /\
    ImageCarouselController.requested c2 1 = nth_error images 0.
Proof.
  intros Himg [i0 Hi0]. cbv zeta.
  pose proof (images_two cat images Himg) as Hlen.
  assert (Hinit : forall cs,
             (exists i, has_category cs cat i = true) ->
             ImageCarouselController.currentIndices
               (ImageCarouselController.new cs) cat = Some 0%nat /\
             forall j, has_category cs cat j = true ->
                       ImageCarouselController.requested
                         (ImageCarouselController.new cs) j
                       = nth_error images 0).
  { intros cs [i Hi]. unfold ImageCarouselController.new.
    destruct (init_from_spec cat images cs Himg 0
                (ImageCarouselController.mk (fun _ => None) (fun _ => None)))
      as (H1 & _ & _).
    split.
    - apply has_category_spec in Hi. apply (H1 i Hi).
    - intros j Hj. apply has_category_spec in Hj. apply (H1 j Hj). }
  assert (Hgen : forall cs ticks' c count,
             ImageCarouselController.currentIndices c cat
             = Some (count mod List.length images)%nat ->
             (forall j, has_category cs cat j = true ->
                        exists img,
                          ImageCarouselController.requested c j = Some img /\
                          In img images) ->
             let c' := fold_left
                         (fun c i => ImageCarouselController.rotate cs i c)
                         ticks' c in
             ImageCarouselController.currentIndices c' cat
             = Some ((count
                      + List.length (filter (has_category cs cat) ticks'))
                     mod List.length images)%nat /\
             (forall j, has_category cs cat j = true ->
                        exists img,
                          ImageCarouselController.requested c' j = Some img /\
                          In img images)).
  { intros cs ticks'. induction ticks' as [| i rest IH]; intros c count Hidx Hreq.
    - simpl. rewrite Nat.add_0_r. auto.
    - simpl fold_left.
      destruct (rotate_spec cs cat images i count c Himg Hidx Hreq)
        as (Hidx' & _ & Hreq').
      destruct (IH _ _ Hidx' Hreq') as [Hfin Hreqfin].
      cbv zeta. split; [| exact Hreqfin].
      rewrite Hfin. simpl filter.
      destruct (has_category cs cat i); simpl List.length; f_equal; f_equal;
        lia. }
  assert (H0img : exists img, nth_error images 0 = Some img /\ In img images).
  { destruct images as [| a l]; [discriminate Hlen |].
    exists a. split; [reflexivity | left; reflexivity]. }
  split; [| split].
  - destruct (Hinit carousels (ex_intro _ i0 Hi0)) as [Hidx Hreq].
    unfold rotations.
    destruct (Hgen carousels ticks (ImageCarouselController.new carousels)
                   0%nat) as [Hfin _].
    + rewrite Nat.Div0.mod_0_l. exact Hidx.
    + intros j Hj. rewrite (Hreq j Hj). exact H0img.
    + exact Hfin.
  - destruct (Hinit carousels (ex_intro _ i0 Hi0)) as [Hidx Hreq].
    unfold rotations.
    destruct (Hgen carousels ticks (ImageCarouselController.new carousels)
                   0%nat) as [_ Hfin].
    + rewrite Nat.Div0.mod_0_l. exact Hidx.
    + intros j Hj. rewrite (Hreq j Hj). exact H0img.
    + exact Hfin.
  - set (cs := [Some cat; Some cat]).
    assert (Hc0 : has_category cs cat 0 = true)
      by (subst cs; unfold has_category; simpl; apply String.eqb_refl).
    assert (Hc1 : has_category cs cat 1 = true)
      by (subst cs; unfold has_category; simpl; apply String.eqb_refl).
    assert (Hround : forall c,
               ImageCarouselController.currentIndices c cat = Some 0%nat ->
               let c' := ImageCarouselController.rotate
                           cs 1 (ImageCarouselController.rotate cs 0 c) in
               ImageCarouselController.currentIndices c' cat = Some 0%nat /\
               ImageCarouselController.requested c' 0 = nth_error images 1 /\
               ImageCarouselController.requested c' 1 = nth_error images 0).
    { intros c Hidx. cbv zeta.
      assert (Hn0 : nth_error cs 0 = Some (Some cat)) by reflexivity.
      assert (Hn1 : nth_error cs 1 = Some (Some cat)) by reflexivity.
      rewrite (rotate_step cs cat images 0 0 c Hn0 Himg Hidx).
      rewrite Hlen. change ((0 + 1) mod 2)%nat with 1%nat.
      erewrite (rotate_step cs cat images 1 1 _ Hn1 Himg).
      - rewrite Hlen. change ((1 + 1) mod 2)%nat with 0%nat.
        cbn [ImageCarouselController.currentIndices
             ImageCarouselController.requested
             ImageCarouselController.set_index
             ImageCarouselController.set_requested Nat.eqb].
        rewrite String.eqb_refl. auto.
      - cbn [ImageCarouselController.currentIndices
             ImageCarouselController.set_index
             ImageCarouselController.set_requested].
        rewrite String.eqb_refl. reflexivity. }
    assert (Hrounds : forall n c,
               ImageCarouselController.currentIndices c cat = Some 0%nat ->
               let c' := fold_left
                           (fun c i => ImageCarouselController.rotate cs i c)
                           (alternate (S n)) c in
               ImageCarouselController.currentIndices c' cat = Some 0%nat /\
               ImageCarouselController.requested c' 0 = nth_error images 1 /\
               ImageCarouselController.requested c' 1 = nth_error images 0).
    { induction n as [| n IH]; intros c Hidx.
      - simpl. apply Hround. exact Hidx.
      - change (alternate (S (S n))) with (0 :: 1 :: alternate (S n))%nat.
        cbn [fold_left]. apply IH. apply (Hround c Hidx). }
    intros n. unfold rotations.
    destruct (Hinit cs (ex_intro _ 0%nat Hc0)) as [Hidx _].
    destruct (Hrounds n (ImageCarouselController.new cs) Hidx)
      as (_ & Hr0 & Hr1).
    split; assumption.
Qed.

Lemma carousel_shared_index_witness :
  ImageCarouselController.requested
    (rotations [Some "cake"; Some "cake"]%string (alternate 3)) 1
  = Some "p4.jpg"%string.
Proof.
  destruct (carousel_shared_index
              [Some "cake"; Some "love"]%string [0; 1; 0]%nat
              "cake" ["p4.jpg"; "p5.jpg"]%string eq_refl
              (ex_intro _ 0%nat eq_refl))
    as (_ & _ & Hn).
  exact (proj2 (Hn 2%nat)).
Defined.

(** ** The celebration button *)

Lemma launch_resets_after_four (sh : Show) :
  fireworks_isActive sh = false ->
  In (4000%N, FireworksReset) (snd (FireworksController.launch sh)).
Proof.
  intros Hf. unfold FireworksController.launch. rewrite Hf. cbn [snd].
  apply in_or_app. right. left. reflexivity.
Qed.

Lemma activate_resets_after_eight (has_fireworks has_trees : bool) (sh : Show) :
  celebration_isActive sh = false ->
  In (8000%N, CelebrationReset)
     (snd (UltimateCelebration.activate has_fireworks has_trees sh)).
Proof.
  intros Hc. unfold UltimateCelebration.activate. rewrite Hc. cbn [snd].
  do 5 (apply in_or_app; right). right. right. left. reflexivity.
Qed.

Lemma show_click_timers (has_fireworks has_trees : bool) (sh : Show) :
  snd (show_click has_fireworks has_trees sh)
  = snd (FireworksController.launch sh)
    ++ snd (UltimateCelebration.activate has_fireworks has_trees
              (fst (FireworksController.launch sh))).
Proof.
  unfold show_click.
  destruct (FireworksController.launch sh) as [sh1 timers1]. cbn [fst snd].
  destruct (UltimateCelebration.activate has_fireworks has_trees sh1)
    as [sh2 timers2].
  reflexivity.
Qed.

(** X20.  The fireworks controller and the celebration listen to the same
    button.  After a click both are active; the click schedules eight
    fireworks unless the fireworks controller was active and fifteen more
    unless the celebration was, 23 from rest.  The reset of the fireworks
    controller, after four seconds, takes the highlight from the button
    while the celebration, which is reset after eight, is still active; a
    click then launches eight more fireworks and no second celebration. *)
Theorem celebration_button_click (has_trees : bool) (sh : Show) :
  let r := show_click true has_trees sh in
  fireworks_isActive (fst r) = true /\
  celebration_isActive (fst r) = true /\
  fireworks_scheduled (snd r)
  = ((if fireworks_isActive sh then 0 else 8)
     + (if celebration_isActive sh then 0 else 15))%nat /\
  (fireworks_isActive sh = false -> In (4000%N, FireworksReset) (snd r)) /\
  (celebration_isActive sh = false ->
   In (8000%N, CelebrationReset) (snd r)) /\
  (fireworks_isActive sh = true -> celebration_isActive sh = true ->
   r = (sh, [])) /\
  let sh4 := FireworksController.reset (fst r) in
  sh4 = mkShow false true false /\
  show_click true has_trees sh4 = FireworksController.launch sh4 /\
  fireworks_scheduled (snd (show_click true has_trees sh4)) = 8%nat.
Proof.
  cbv zeta.
  split; [destruct sh as [[|] [|] b]; reflexivity |].
  split; [destruct sh as [[|] [|] b]; reflexivity |].
  split; [destruct sh as [[|] [|] b], has_trees; reflexivity |].
  split.
  { intros Hf. rewrite show_click_timers. apply in_or_app. left.
    apply launch_resets_after_four. exact Hf. }
  split.
  { intros Hc. rewrite show_click_timers. apply in_or_app. right.
    apply activate_resets_after_eight.
    destruct sh as [[|] c b]; exact Hc. }
  split.
  { intros Hf Hc. destruct sh as [f c b]. simpl in Hf, Hc. subst f c.
    reflexivity. }
  split; [destruct sh as [[|] [|] b]; reflexivity |].
  split; destruct sh as [[|] [|] b]; reflexivity.
Qed.


